(** * Virtual-time kernel of the FNCS/ns-3 co-simulation bridge

  A shallow embedding of
  - [src/core/model/nstime.h]: the [Time] value type, its unit conversions
    and the global resolution;
  - [src/applications/model/fncs-application.cc]: the federate endpoint
    ([StartApplication], [Send], [HandleRead]);
  - the event scheduler used by [src/fncs/examples/fncs-sample-simulator.cc].

  Fixed-width integers are integers of [Z] with the wrap-around written
  out; [std::string] is [string]; packet buffers are [list byte]; the
  registry of live [Time] objects is a [gset] of addresses over a [gmap]
  heap. *)

From Stdlib Require Import ZArith Lia List String Ascii Sorted Permutation.
From Stdlib.Strings Require Import Byte.
From stdpp Require Import gmap strings list.

Open Scope Z_scope.

(** ** Outcome of a call that may hit [NS_FATAL_ERROR] *)

(** Modelled from the spec: the macro [NS_FATAL_ERROR] is defined in
    [fatal-error.h], which is not among the sources.  A fatal condition
    aborts the process at the point of detection: nothing after it runs.
    A call either completes with a value or is fatal with a message. *)
Inductive Result (A : Type) : Type :=
| Ok (a : A)
| Fatal (msg : string).
Arguments Ok {A} a.
Arguments Fatal {A} msg.

Definition is_fatal {A} (r : Result A) : bool :=
  match r with Fatal _ => true | Ok _ => false end.

(** ** Fixed-width integers *)

Module Int.

(** Conversion to [int64_t]: two's complement, modulo [2^64]. *)
Definition to_int64 (z : Z) : Z := (z + 2 ^ 63) mod 2 ^ 64 - 2 ^ 63.

(** Conversion to [uint64_t]: modulo [2^64]. *)
Definition to_uint64 (z : Z) : Z := z mod 2 ^ 64.

(** Conversion to [uint32_t]: modulo [2^32]. *)
Definition to_uint32 (z : Z) : Z := z mod 2 ^ 32.

Definition int64_range (z : Z) : Prop := - 2 ^ 63 <= z < 2 ^ 63.
Definition uint64_range (z : Z) : Prop := 0 <= z < 2 ^ 64.

Definition INT64_MIN : Z := - 2 ^ 63.
Definition INT64_MAX : Z := 2 ^ 63 - 1.

End Int.
Import Int.

(** ** 64.64 fixed point *)

Module int64x64.

(** Modelled from the spec: [int64x64.h] is not among the sources.  The
    glossary describes the type as a number with 64 integer and 64
    fractional bits; a value is kept as its raw 128-bit two's-complement
    word [_v], standing for the real number [_v / 2^64]. *)
Definition int64x64_t : Type := Z.

Definition wrap128 (z : Z) : Z := (z + 2 ^ 127) mod 2 ^ 128 - 2 ^ 127.

Definition range128 (z : Z) : Prop := - 2 ^ 127 <= z < 2 ^ 127.

(** Modelled from the spec: [int64x64_t (hi, lo)], the value with integer
    word [hi] and fraction word [lo]. *)
Definition make (hi lo : Z) : int64x64_t := wrap128 (hi * 2 ^ 64 + lo).

(** Modelled from the spec: [int64x64_t (v)] for an integer [v]. *)
Definition of_int (v : Z) : int64x64_t := make v 0.

(** Modelled from the spec: [GetHigh] is the accessor of the high word,
    the 64 integer bits of the value. *)
Definition GetHigh (x : int64x64_t) : Z := to_int64 (Z.shiftr x 64).

(** Modelled from the spec: [GetLow] is the accessor of the low word, the
    64 fractional bits. *)
Definition GetLow (x : int64x64_t) : Z := Z.land x (2 ^ 64 - 1).

(** Modelled from the spec: [operator*=], the product of two 64.64 values
    kept to 64 fractional bits. *)
Definition Mul (a b : int64x64_t) : int64x64_t :=
  wrap128 (Z.shiftr (a * b) 64).

(** Modelled from the spec: [Invert (v)], the 64.64 multiplier that stands
    for the reciprocal of the integer factor [v]. *)
Definition Invert (v : Z) : int64x64_t := 2 ^ 64 / v.

(** Modelled from the spec: [MulByInvert (o)] multiplies by a multiplier
    that was built by [Invert]. *)
Definition MulByInvert (a o : int64x64_t) : int64x64_t := Mul a o.

(** Rounding a 64.64 value to the nearest integer (ties upwards); the
    rounding mode the specification attributes to the conversions. *)
Definition nearest (x : int64x64_t) : Z := (x + 2 ^ 63) / 2 ^ 64.

End int64x64.
Import int64x64.

(** ** nstime.h: the Time class *)

Module nstime.

(** [enum Time::Unit] ([LAST] only sizes the table). *)
Inductive Unit : Type :=
| Time_S | Time_MS | Time_US | Time_NS | Time_PS | Time_FS.

#[global] Instance Unit_eq_dec : EqDecision Unit.
Proof. solve_decision. Defined.

Definition all_units : list Unit :=
  [Time_S; Time_MS; Time_US; Time_NS; Time_PS; Time_FS].

(** [class Time]: its single data member is [int64_t m_data]. *)
Record Time : Type := mkTime { m_data : Z }.

(** [struct Time::Information]. *)
Record Information : Type := mkInformation {
  toMul : bool;
  fromMul : bool;
  factor : Z;
  timeTo : int64x64_t;
  timeFrom : int64x64_t
}.

(** [struct Time::Resolution]: the table [info[LAST]] and the unit. *)
Record Resolution : Type := mkResolution {
  info : Unit -> Information;
  unit : Unit
}.

(** *** Constructors *)

(** [Time (long int v)], [Time (long long int v)], [Time (int v)]. *)
Definition Time_int64 (v : Z) : Time := mkTime (to_int64 v).

(** [Time (unsigned long int v)]: storing into [int64_t m_data]. *)
Definition Time_uint64 (v : Z) : Time := mkTime (to_int64 (to_uint64 v)).

(** [Time (const Time &o)]. *)
Definition Time_copy (o : Time) : Time := mkTime (m_data o).

(** [Time (const int64x64_t &value) : m_data (value.GetHigh ())]. *)
Definition Time_int64x64 (value : int64x64_t) : Time :=
  mkTime (GetHigh value).

(** *** Predicates and comparisons *)

Definition IsZero (t : Time) : bool := m_data t =? 0.
Definition IsNegative (t : Time) : bool := m_data t <=? 0.
Definition IsPositive (t : Time) : bool := m_data t >=? 0.
Definition IsStrictlyNegative (t : Time) : bool := m_data t <? 0.
Definition IsStrictlyPositive (t : Time) : bool := m_data t >? 0.

Definition Compare (t o : Time) : Z :=
  if m_data t <? m_data o then -1
  else if m_data t =? m_data o then 0 else 1.

Definition GetTimeStep (t : Time) : Z := m_data t.
Definition GetInteger (t : Time) : Z := GetTimeStep t.

Definition op_eq (lhs rhs : Time) : bool := m_data lhs =? m_data rhs.
Definition op_ne (lhs rhs : Time) : bool := negb (m_data lhs =? m_data rhs).
Definition op_le (lhs rhs : Time) : bool := m_data lhs <=? m_data rhs.
Definition op_ge (lhs rhs : Time) : bool := m_data lhs >=? m_data rhs.
Definition op_lt (lhs rhs : Time) : bool := m_data lhs <? m_data rhs.
Definition op_gt (lhs rhs : Time) : bool := m_data lhs >? m_data rhs.

(** *** Arithmetic: [int64_t] sums and differences, modulo [2^64] *)

Definition op_add (lhs rhs : Time) : Time :=
  Time_int64 (m_data lhs + m_data rhs).
Definition op_sub (lhs rhs : Time) : Time :=
  Time_int64 (m_data lhs - m_data rhs).

(** [lhs.m_data += rhs.m_data; return lhs]: the updated left operand. *)
Definition op_add_assign (lhs rhs : Time) : Time :=
  mkTime (to_int64 (m_data lhs + m_data rhs)).
Definition op_sub_assign (lhs rhs : Time) : Time :=
  mkTime (to_int64 (m_data lhs - m_data rhs)).

Definition Abs (time : Time) : Time :=
  Time_int64 (if m_data time <? 0 then - m_data time else m_data time).
Definition Max (ta tb : Time) : Time :=
  Time_copy (if m_data ta <? m_data tb then tb else ta).
Definition Min (ta tb : Time) : Time :=
  Time_copy (if m_data ta >? m_data tb then tb else ta).

(** *** The conversion table *)

(** Modelled from the spec: the body of the private
    [SetResolution (unit, resolution, convert)] is in [time.cc], which is
    not among the sources.  Following the comments on the fields of
    [Information] ([factor] is the ratio of this unit and the current
    unit, [toMul] and [fromMul] tell whether to multiply or to divide) and
    the descriptor of the spec's data model (direction flag, integer
    factor, two 64.64 multipliers), the entry of unit [u] under the
    current unit [current] is built from the decimal exponents of the two
    units. *)
Definition power (u : Unit) : Z :=
  match u with
  | Time_S => 15 | Time_MS => 12 | Time_US => 9
  | Time_NS => 6 | Time_PS => 3 | Time_FS => 0
  end.

Definition SetResolution_info (current u : Unit) : Information :=
  let shift := power u - power current in
  let f := 10 ^ Z.abs shift in
  if shift =? 0 then
    mkInformation true true f (of_int 1) (of_int 1)
  else if 0 <? shift then
    mkInformation false true f (Invert f) (of_int f)
  else
    mkInformation true false f (of_int f) (Invert f).

Definition SetResolution_table (current : Unit) : Resolution :=
  mkResolution (SetResolution_info current) current.

(** Modelled from the spec: the registry is lazily initialised to
    nanosecond resolution. *)
Definition SetDefaultNsResolution : Resolution :=
  SetResolution_table Time_NS.

(** *** Conversions; the global resolution is passed explicitly *)

Definition PeekInformation (r : Resolution) (timeUnit : Unit)
  : Information := info r timeUnit.

Definition GetResolution (r : Resolution) : Unit := unit r.

(** [FromInteger (uint64_t value, Unit timeUnit)]: the argument is
    converted to the [uint64_t] parameter; [value] and [factor] are both
    [uint64_t], so the product is taken modulo [2^64] and the quotient is
    the unsigned one; [Time (value)] then stores the [uint64_t] into
    [int64_t m_data]. *)
Definition FromInteger (r : Resolution) (value : Z) (timeUnit : Unit)
  : Time :=
  let i := PeekInformation r timeUnit in
  let value := to_uint64 value in
  let value :=
    if fromMul i then to_uint64 (value * factor i)
    else value / factor i in
  Time_uint64 value.

(** [ToInteger (Unit timeUnit)]: [v] is [int64_t] and [factor] is
    [uint64_t], so [v *= factor] and [v /= factor] are computed on
    [uint64_t] (the usual arithmetic conversions turn [v] into
    [uint64_t]) and the result is stored back into the [int64_t]. *)
Definition ToInteger (r : Resolution) (t : Time) (timeUnit : Unit) : Z :=
  let i := PeekInformation r timeUnit in
  let v := m_data t in
  if toMul i then to_int64 (to_uint64 v * factor i)
  else to_int64 (to_uint64 v / factor i).

(** The multiplication step of [From]: [retval *= info->timeFrom] or
    [retval.MulByInvert (info->timeFrom)]. *)
Definition From_scaled (r : Resolution) (from : int64x64_t)
    (timeUnit : Unit) : int64x64_t :=
  let i := PeekInformation r timeUnit in
  if fromMul i then Mul from (timeFrom i)
  else MulByInvert from (timeFrom i).

(** [From (const int64x64_t &from, Unit timeUnit)]. *)
Definition From (r : Resolution) (from : int64x64_t) (timeUnit : Unit)
  : Time :=
  Time_int64x64 (From_scaled r from timeUnit).

(** [To (Unit timeUnit)]. *)
Definition To (r : Resolution) (t : Time) (timeUnit : Unit)
  : int64x64_t :=
  let i := PeekInformation r timeUnit in
  let retval := of_int (m_data t) in
  if toMul i then Mul retval (timeTo i)
  else MulByInvert retval (timeTo i).

(** [Time::FromInteger (t.ToInteger (timeUnit), timeUnit)]. *)
Definition roundtrip (r : Resolution) (t : Time) (timeUnit : Unit) : Time :=
  FromInteger r (ToInteger r t timeUnit) timeUnit.

(** The factories on integers and on 64.64 values. *)
Definition MilliSeconds (r : Resolution) (ms : Z) : Time :=
  FromInteger r ms Time_MS.
Definition MicroSeconds (r : Resolution) (us : Z) : Time :=
  FromInteger r us Time_US.
Definition NanoSeconds (r : Resolution) (ns : Z) : Time :=
  FromInteger r ns Time_NS.
Definition PicoSeconds (r : Resolution) (ps : Z) : Time :=
  FromInteger r ps Time_PS.
Definition FemtoSeconds (r : Resolution) (fs : Z) : Time :=
  FromInteger r fs Time_FS.
Definition Seconds (r : Resolution) (seconds : int64x64_t) : Time :=
  From r seconds Time_S.
Definition TimeStep (ts : Z) : Time := Time_uint64 ts.

Definition GetMilliSeconds (r : Resolution) (t : Time) : Z :=
  ToInteger r t Time_MS.
Definition GetMicroSeconds (r : Resolution) (t : Time) : Z :=
  ToInteger r t Time_US.
Definition GetNanoSeconds (r : Resolution) (t : Time) : Z :=
  ToInteger r t Time_NS.


(** *** The registry of live instances and the one-shot rescale *)

(** A [Time] object lives at an address; [TimesSet] is
    [std::set<Time *>]. *)
Definition addr : Type := positive.

(** The process-wide state of the class: the static [Resolution] behind
    [PeekResolution], the [TimesSet] behind [GetTimesSet] ([None] once it
    has been deleted: the null pointer returned ever after), and the live
    objects. *)
Record World : Type := mkWorld {
  w_resolution : Resolution;
  w_times : option (gset addr);
  w_heap : gmap addr Time
}.

Definition initial_world : World :=
  mkWorld SetDefaultNsResolution (Some ∅) ∅.

(** Modelled from the spec: [GetTimesSet (deleteMe)] is defined in
    [time.cc]; the header documents that with [deleteMe] the set is
    deleted, so that a null pointer is returned ever after. *)
Definition GetTimesSet (deleteMe : bool) (w : World)
  : option (gset addr) * World :=
  if deleteMe then (None, mkWorld (w_resolution w) None (w_heap w))
  else (w_times w, w).

(** Modelled from the spec: [TimeSet (time)] records an instance while
    tracking is active. *)
Definition TimeSet (p : addr) (w : World) : World :=
  match fst (GetTimesSet false w) with
  | Some times => mkWorld (w_resolution w) (Some ({[p]} ∪ times)) (w_heap w)
  | None => w
  end.

(** Modelled from the spec: [TimeUnset (time)] removes the record of an
    instance, called by the destructor. *)
Definition TimeUnset (p : addr) (w : World) : World :=
  match fst (GetTimesSet false w) with
  | Some times => mkWorld (w_resolution w) (Some (times ∖ {[p]})) (w_heap w)
  | None => w
  end.

(** A constructor [Time (v)] run at a fresh address: it initialises
    [m_data] and calls [TimeSet (this)]. *)
Definition Time_ctor (t : Time) (w : World) : addr * World :=
  let p := fresh (dom (w_heap w)) in
  (p, TimeSet p (mkWorld (w_resolution w) (w_times w) (<[p := t]> (w_heap w)))).

(** The destructor [~Time ()]: [TimeUnset (this)], and the object is
    gone. *)
Definition Time_dtor (p : addr) (w : World) : World :=
  let w' := TimeUnset p w in
  mkWorld (w_resolution w') (w_times w') (delete p (w_heap w')).

(** [operator = (const int64_t &value)] on the object at [p]. *)
Definition Time_assign (p : addr) (value : Z) (w : World) : World :=
  mkWorld (w_resolution w) (w_times w)
    (alter (fun _ => mkTime (to_int64 value)) p (w_heap w)).

(** Modelled from the spec: [ConvertTimes (unit)] is defined in [time.cc].
    It rewrites the tick value of every tracked instance so that its
    duration is kept as closely as integer rounding allows, which is
    [ToInteger] towards the new unit under the table still in force, and
    then discards the tracking structure; without a tracking structure the
    call is fatal. *)
Definition ConvertTimes (u : Unit) (w : World) : Result World :=
  match GetTimesSet false w with
  | (None, _) =>
      Fatal "No Time registry. Time::SetResolution () called more than once?"
  | (Some times, w) =>
      let rescale (p : addr) (t : Time) : option Time :=
        Some (if decide (p ∈ times)
              then mkTime (ToInteger (w_resolution w) t u) else t) in
      let w' := mkWorld (w_resolution w) (w_times w)
                  (map_imap rescale (w_heap w)) in
      Ok (snd (GetTimesSet true w'))
  end.

(** Modelled from the spec: the public [SetResolution (resolution)]
    (defined in [time.cc]) computes the descriptors of all units relative
    to the new unit, rewrites the tracked instances and discards the
    tracking structure; a call without tracking structure is fatal. *)
Definition SetResolution (resolution : Unit) (w : World) : Result World :=
  let table := SetResolution_table resolution in
  match ConvertTimes resolution w with
  | Fatal msg => Fatal msg
  | Ok w' => Ok (mkWorld table (w_times w') (w_heap w'))
  end.

(** What a program does with [Time] objects between two calls of
    [SetResolution]. *)
Inductive Op : Type :=
| OpCtor (t : Time)
| OpDtor (p : addr)
| OpAssign (p : addr) (value : Z).

Definition step (w : World) (o : Op) : World :=
  match o with
  | OpCtor t => snd (Time_ctor t w)
  | OpDtor p => Time_dtor p w
  | OpAssign p value => Time_assign p value w
  end.

Definition run_ops (ops : list Op) (w : World) : World :=
  fold_left step ops w.

(** Reading two live objects through an operation of the class. *)
Definition on_objects {A} (f : Time -> Time -> A) (w : World) (p q : addr)
  : option A :=
  match w_heap w !! p, w_heap w !! q with
  | Some a, Some b => Some (f a b)
  | _, _ => None
  end.

Definition with_resolution (r : Resolution) (w : World) : World :=
  mkWorld r (w_times w) (w_heap w).



End nstime.

(** ** The event scheduler *)

Module Scheduler.
Import nstime.

(** Modelled from the spec: the scheduler ([Simulator], its implementation
    and its event queue) is not among the sources, which only call
    [Schedule], [Cancel], [Stop], [Run] and [Destroy].  The definitions of
    this module follow the contract of the spec's EventScheduler: an event
    is keyed by its virtual time and its insertion sequence number, and
    carries a callback, a live flag and its identifier (the sequence
    number). *)
Inductive Callback : Type :=
| UserCallback (tag : nat)
| StopCallback.

Record Event : Type := mkEvent {
  ev_time : Time;
  ev_seq : nat;
  ev_cb : Callback;
  ev_live : bool
}.

Definition EventId : Type := nat.

Record State : Type := mkState {
  now : Time;
  next_seq : nat;
  queue : list Event
}.

Definition initial : State := mkState (mkTime 0) 0%nat [].

(** Modelled from the spec: [Schedule (delay, callback)] is rejected
    (OutOfOrder) if the delay would place the event before the current
    virtual time; otherwise the event is inserted under the key (current
    time + delay, next sequence number) and its identifier returned. *)
Definition Schedule (delay : Time) (cb : Callback) (s : State)
  : option (EventId * State) :=
  let t := op_add (now s) delay in
  if op_lt t (now s) then None
  else
    let e := mkEvent t (next_seq s) cb true in
    Some (next_seq s, mkState (now s) (S (next_seq s)) (queue s ++ [e])).

(** Modelled from the spec: [Cancel (id)] marks the event inert; an unknown,
    dispatched or already cancelled identifier is a no-op. *)
Definition Cancel (id : EventId) (s : State) : State :=
  let mark e :=
    if Nat.eqb (ev_seq e) id
    then mkEvent (ev_time e) (ev_seq e) (ev_cb e) false else e in
  mkState (now s) (next_seq s) (map mark (queue s)).

(** Modelled from the spec: [Stop (delay)] schedules an internal terminal
    event. *)
Definition Stop (delay : Time) (s : State) : State :=
  match Schedule delay StopCallback s with
  | Some (_, s') => s'
  | None => s
  end.

(** Modelled from the spec: [Destroy ()] drains the remaining events
    without dispatching them. *)
Definition Destroy (s : State) : State :=
  mkState (now s) (next_seq s) [].

(** The order of the keys: earlier virtual time first, and among equal
    times the smaller sequence number first. *)
Definition earlier (a b : Event) : bool :=
  op_lt (ev_time a) (ev_time b)
  || (op_eq (ev_time a) (ev_time b) && Nat.ltb (ev_seq a) (ev_seq b)).

(** Modelled from the spec: the earliest live event of the queue. *)
Fixpoint earliest (q : list Event) : option Event :=
  match q with
  | [] => None
  | e :: q' =>
      match earliest q' with
      | None => if ev_live e then Some e else None
      | Some m => if ev_live e && earlier e m then Some e else Some m
      end
  end.

(** Removing the popped event, found by its identifier. *)
Definition pop (e : Event) (q : list Event) : list Event :=
  List.filter (fun e' => negb (Nat.eqb (ev_seq e') (ev_seq e))) q.

(** What application code asks of the scheduler, before [Run] or from
    inside a callback. *)
Inductive Command : Type :=
| CSchedule (delay : Time) (tag : nat)
| CCancel (id : EventId)
| CStop (delay : Time).

Definition exec (s : State) (c : Command) : State :=
  match c with
  | CSchedule delay tag =>
      match Schedule delay (UserCallback tag) s with
      | Some (_, s') => s'
      | None => s
      end
  | CCancel id => Cancel id s
  | CStop delay => Stop delay s
  end.

Definition exec_all (cs : list Command) (s : State) : State :=
  fold_left exec cs s.

Section Run.

(** What the callback registered under a tag does when it is dispatched:
    the requests it makes to the scheduler. *)
Variable body : nat -> list Command.

(** Modelled from the spec: [Run ()] repeatedly pops the earliest live
    event, advances the virtual clock to its time and dispatches its
    callback, until the queue holds no live event or the stop event fires.
    The result is the list of the dispatched events in dispatch order, the
    final state, and whether the loop ended within [fuel] iterations. *)
Fixpoint Run (fuel : nat) (s : State) : list Event * State * bool :=
  match fuel with
  | O => ([], s, false)
  | S fuel' =>
      match earliest (queue s) with
      | None => ([], s, true)
      | Some e =>
          let s1 := mkState (ev_time e) (next_seq s) (pop e (queue s)) in
          match ev_cb e with
          | StopCallback => ([], s1, true)
          | UserCallback tag =>
              let '(tr, s', finished) := Run fuel' (exec_all (body tag) s1) in
              (e :: tr, s', finished)
          end
      end
  end.

End Run.

(** The dispatched events of a run. *)
Definition trace (r : list Event * State * bool) : list Event := fst (fst r).
Definition finished (r : list Event * State * bool) : bool := snd r.
Definition final (r : list Event * State * bool) : State := snd (fst r).

(** Callbacks that make no request to the scheduler. *)
Definition inert : nat -> list Command := fun _ => [].

(** The key of an event, and the strict order of dispatch. *)
Definition key_lt (a b : Event) : Prop :=
  m_data (ev_time a) < m_data (ev_time b)
  \/ (m_data (ev_time a) = m_data (ev_time b) /\ (ev_seq a < ev_seq b)%nat).

(** The live events of a queue. *)
Definition live (q : list Event) : list Event := List.filter ev_live q.

(** A call [Schedule (delay, callback)] of the callback registered under
    [tag], as a command. *)
Definition schedule_cmd (call : Time * nat) : Command :=
  CSchedule (fst call) (snd call).

(** The events that a sequence of accepted [Schedule] calls inserts at
    virtual time 0: the i-th call at its delay, with sequence number
    [first + i]. *)
Definition scheduled (first : nat) (calls : list (Time * nat)) : list Event :=
  imap (fun i call =>
          mkEvent (fst call) (first + i) (UserCallback (snd call)) true)
    calls.

(** A whole number of seconds under the default resolution. *)
Definition sec (n : Z) : Time :=
  Seconds SetDefaultNsResolution (of_int n).

Definition is_stop (c : Command) : bool :=
  match c with CStop _ => true | _ => false end.

(** The sequence numbers of the queue are below the next one, and no two
    events share one. *)
Definition well_formed (s : State) : Prop :=
  Forall (fun e => (ev_seq e < next_seq s)%nat) (queue s)
  /\ NoDup (map ev_seq (queue s)).

(** No internal stop event is pending. *)
Definition no_stop (s : State) : Prop :=
  Forall (fun e => ev_cb e <> StopCallback) (queue s).

(** Every live pending event comes after the key of [k], and so will
    every event scheduled from now on. *)
Definition above (k : Event) (s : State) : Prop :=
  m_data (ev_time k) <= m_data (now s)
  /\ (ev_seq k < next_seq s)%nat
  /\ Forall (fun e => ev_live e = true -> key_lt k e) (queue s).

End Scheduler.

(** ** fncs-application.cc: the federate endpoint *)

Module fncs_application.

(** Modelled from the spec: the transport types ([Address], the socket
    addresses, [Socket], [Packet]) are collaborators that are not among the
    sources.  An [Address] carries the type tag that [IsMatchingType]
    tests; the default-constructed [Address ()] matches neither family. *)
Inductive Address : Type :=
| AddressInvalid
| AddressIpv4 (a : Z)
| AddressIpv6 (a : Z).

Definition Ipv4Address_IsMatchingType (a : Address) : bool :=
  match a with AddressIpv4 _ => true | _ => false end.

Definition Ipv6Address_IsMatchingType (a : Address) : bool :=
  match a with AddressIpv6 _ => true | _ => false end.

(** [InetSocketAddress] and [Inet6SocketAddress]: an address and a port. *)
Inductive SocketAddress : Type :=
| InetSocketAddress (ip : Address) (port : Z)
| Inet6SocketAddress (ip : Address) (port : Z).

(** The bytes of a [Packet]. *)
Definition Packet : Type := list byte.

(** The socket behind [m_socket]: what it is bound to ([None] for the
    ephemeral [Bind ()]) and whether the receive callback is
    [HandleRead]. *)
Record Socket : Type := mkSocket {
  sock_bound : option SocketAddress;
  sock_recv_callback : bool
}.

(** Modelled from the spec: the class declaration ([fncs-application.h])
    is not among the sources.  The data members are those that
    [fncs-application.cc] uses, with the types of their attributes in
    [GetTypeId]: a string, the counter [Sent] checked as [uint32_t], an
    [Address] and a port. *)
Record FncsApplication : Type := mkApp {
  m_name : string;
  m_sent : Z;
  m_socket : option Socket;
  m_localAddress : Address;
  m_localPort : Z
}.

(** What a call does to its collaborators, in order. *)
Inductive Effect : Type :=
| TxTrace (p : Packet)
| SendTo (p : Packet) (flags : Z) (to : SocketAddress)
| Publish (topic value : string).

(** The constructor: [m_sent = 0; m_socket = 0]; the attributes are at
    their initial values ([StringValue ()], [AddressValue ()],
    [UintegerValue (0)]). *)
Definition FncsApplication_new : FncsApplication :=
  mkApp "" 0 None AddressInvalid 0.

Definition SetName (name : string) (app : FncsApplication)
  : FncsApplication :=
  mkApp name (m_sent app) (m_socket app) (m_localAddress app)
    (m_localPort app).

Definition GetName (app : FncsApplication) : string := m_name app.

Definition SetLocal (ip : Address) (port : Z) (app : FncsApplication)
  : FncsApplication :=
  mkApp (m_name app) (m_sent app) (m_socket app) ip port.

Definition GetLocalInet (app : FncsApplication) : SocketAddress :=
  InetSocketAddress (m_localAddress app) (m_localPort app).

Definition GetLocalInet6 (app : FncsApplication) : SocketAddress :=
  Inet6SocketAddress (m_localAddress app) (m_localPort app).

(** [std::string::empty]. *)
Definition empty (s : string) : bool :=
  match s with EmptyString => true | String _ _ => false end.

(** [StartApplication]: creates and binds the socket when there is none,
    installs [HandleRead] as receive callback, and only then checks the
    name. *)
Definition StartApplication (app : FncsApplication)
  : Result FncsApplication :=
  let socket :=
    match m_socket app with
    | None =>
        if Ipv4Address_IsMatchingType (m_localAddress app) then
          mkSocket (Some (InetSocketAddress (m_localAddress app)
                            (m_localPort app))) false
        else if Ipv6Address_IsMatchingType (m_localAddress app) then
          mkSocket (Some (Inet6SocketAddress (m_localAddress app)
                            (m_localPort app))) false
        else mkSocket None false
    | Some socket => socket
    end in
  let socket := mkSocket (sock_bound socket) true in
  if empty (m_name app) then Fatal "FncsApplication is missing name"
  else Ok (mkApp (m_name app) (m_sent app) (Some socket)
             (m_localAddress app) (m_localPort app)).

(** [StopApplication]: closes the socket and forgets it. *)
Definition StopApplication (app : FncsApplication) : FncsApplication :=
  mkApp (m_name app) (m_sent app) None (m_localAddress app) (m_localPort app).

Definition char_to_uint8_t (c : ascii) : byte := byte_of_ascii c.

(** [std::transform (first, last, out, char_to_uint8_t)] into a buffer:
    the image of the i-th character is written at [out + i]. *)
Fixpoint transform (src : string) (buffer : list byte) (out : nat)
  : list byte :=
  match src with
  | EmptyString => buffer
  | String c src' =>
      transform src' (<[out := char_to_uint8_t c]> buffer) (S out)
  end.

(** [new uint8_t[total_size]]: [total_size] bytes of unspecified content,
    given by [junk]. *)
Definition new_array (junk : nat -> byte) (total_size : nat) : list byte :=
  map junk (seq 0 total_size).

(** The first part of [Send]: the buffer handed to [Create<Packet>]. *)
Definition Send_packet (junk : nat -> byte) (topic value : string)
  : Packet :=
  let total_size := (String.length topic + 1 + String.length value)%nat in
  let buffer := new_array junk total_size in
  let buffer_ptr := 0%nat in
  let buffer := transform topic buffer buffer_ptr in
  let buffer_ptr := (buffer_ptr + String.length topic)%nat in
  let buffer := <[buffer_ptr := char_to_uint8_t "="%char]> buffer in
  let buffer_ptr := (buffer_ptr + 1)%nat in
  let buffer := transform value buffer buffer_ptr in
  take total_size buffer.

(** The endpoint after [++m_sent]. *)
Definition counted (app : FncsApplication) : FncsApplication :=
  mkApp (m_name app) (to_uint32 (m_sent app + 1)) (m_socket app)
    (m_localAddress app) (m_localPort app).

(** [Send (to, topic, value)]: the effects in program order, and the
    endpoint after [++m_sent] when the call returns.  The IPv4 and the IPv6
    branch dereference [m_socket] ([m_socket->SendTo]): on an endpoint
    without socket (never started, or stopped) the process dies there,
    after the trace and before [++m_sent]; [None] stands for that. *)
Definition Send (junk : nat -> byte) (app to : FncsApplication)
    (topic value : string) : list Effect * option FncsApplication :=
  let p := Send_packet junk topic value in
  let traced := [TxTrace p] in
  if Ipv4Address_IsMatchingType (m_localAddress app) then
    match m_socket app with
    | Some _ => (traced ++ [SendTo p 0 (GetLocalInet to)], Some (counted app))
    | None => (traced, None)
    end
  else if Ipv6Address_IsMatchingType (m_localAddress app) then
    match m_socket app with
    | Some _ => (traced ++ [SendTo p 0 (GetLocalInet6 to)], Some (counted app))
    | None => (traced, None)
    end
  else (traced, Some (counted app)).

(** Several calls of [Send] in a row, as far as the process lives. *)
Fixpoint Send_all (junk : nat -> byte) (app : FncsApplication)
    (calls : list (FncsApplication * string * string))
  : list Effect * option FncsApplication :=
  match calls with
  | [] => ([], Some app)
  | (to, topic, value) :: calls' =>
      match Send junk app to topic value with
      | (effects, None) => (effects, None)
      | (effects, Some app') =>
          let '(effects', r) := Send_all junk app' calls' in
          (effects ++ effects', r)
      end
  end.

(** What a call of [Send] needs to return: a socket to send on, or a local
    address of neither family, with which no transmission is attempted. *)
Definition can_send (app : FncsApplication) : Prop :=
  m_socket app <> None \/ m_localAddress app = AddressInvalid.

(** A started endpoint with an IPv4 local address, for the examples. *)
Definition started_meter : FncsApplication :=
  mkApp "meter" 0
    (Some (mkSocket (Some (InetSocketAddress (AddressIpv4 1) 9)) true))
    (AddressIpv4 1) 9.

(** [packet->CopyData (&odata, size); odata.str ()]. *)
Definition CopyData (packet : Packet) : string :=
  string_of_list_ascii (map ascii_of_byte packet).

(** [sdata.find (c, pos)]: the index of the first [c] at or after [pos],
    [None] standing for [std::string::npos]. *)
Fixpoint find_from (c : ascii) (s : string) (i : nat) : option nat :=
  match s with
  | EmptyString => None
  | String a s' =>
      if Ascii.eqb a c then Some i else find_from c s' (S i)
  end.

Definition find (s : string) (c : ascii) (pos : nat) : option nat :=
  find_from c (String.substring pos (String.length s - pos) s) pos.

(** [s.substr (pos, len)] and [s.substr (pos)] for [pos <= size ()]. *)
Definition substr (s : string) (pos len : nat) : string :=
  String.substring pos (Nat.min len (String.length s - pos)) s.

Definition substr_from (s : string) (pos : nat) : string :=
  String.substring pos (String.length s - pos) s.

(** The message of the fatal error of [HandleRead]. *)
Definition fatal_read : string :=
  "HandleRead could not locate '=' to split topic=value".

(** The body of the loop of [HandleRead] on one packet. *)
Definition HandleRead_packet (packet : Packet) : Result Effect :=
  let sdata := CopyData packet in
  match find sdata "="%char 0 with
  | None => Fatal fatal_read
  | Some split =>
      let topic := substr sdata 0 split in
      let value := substr_from sdata (split + 1) in
      Ok (Publish topic value)
  end.

(** [HandleRead (socket)]: the loop over the packets that [RecvFrom]
    returns; the process is gone at the first fatal error, after the
    publications made so far. *)
Fixpoint HandleRead (pending : list Packet) : list Effect * Result unit :=
  match pending with
  | [] => ([], Ok tt)
  | packet :: pending' =>
      match HandleRead_packet packet with
      | Fatal msg => ([], Fatal msg)
      | Ok published =>
          let '(effects, r) := HandleRead pending' in
          (published :: effects, r)
      end
  end.

(** The bytes of a string. *)
Definition bytes_of (s : string) : list byte :=
  map char_to_uint8_t (list_ascii_of_string s).

(** The payload of the wire format: topic, one ['='], value. *)
Definition payload (topic value : string) : Packet :=
  bytes_of (topic +:+ "=" +:+ value).

(** The character [c] occurs in the string [s]. *)
Definition occurs (c : ascii) (s : string) : Prop :=
  In c (list_ascii_of_string s).

End fncs_application.

(** ** What was transmitted and what is to be published *)

Module fncs_wire.
Import fncs_application.

(** The packets handed to [SendTo], in order. *)
Definition transmitted (effects : list Effect) : list Packet :=
  flat_map (fun e => match e with SendTo p _ _ => [p] | _ => [] end) effects.

(** The publication that a call [Send (to, topic, value)] is meant to
    cause at the receiver. *)
Definition publication (call : FncsApplication * string * string) : Effect :=
  Publish (snd (fst call)) (snd call).

(** The topic of a call holds no ['=']. *)
Definition plain_topic (call : FncsApplication * string * string) : Prop :=
  ~ occurs "="%char (snd (fst call)).

End fncs_wire.

(** ** fncs-sample-simulator.cc: the sample program *)

Module sample_simulator.
Import nstime Scheduler.

(** The callbacks of [fncs-sample-simulator.cc], as tags. *)
Definition ExampleFunction : nat := 1%nat.
Definition HandleEvent : nat := 2%nat.
Definition RandomFunction : nat := 3%nat.
Definition CancelledEvent : nat := 4%nat.

(** [MyModel::Start]: [Simulator::Schedule (Seconds (10.0),
    &MyModel::HandleEvent, ...)]. *)
Definition MyModel_Start : list Command :=
  [CSchedule (sec 10) HandleEvent].

(** What a callback of the program asks of the scheduler when it is
    dispatched: [ExampleFunction] calls [model->Start ()], the others only
    print. *)
Definition body (tag : nat) : list Command :=
  if Nat.eqb tag ExampleFunction then MyModel_Start else [].

(** [main], from the first [Schedule] to [Destroy]; [v] is the delay
    [Seconds (v->GetValue ())] of the random variable, and [fuel] bounds
    the iterations of [Run]. *)
Definition main (v : Time) (fuel : nat) : list Event * State * bool :=
  let s := initial in
  let s := exec s (CSchedule (sec 10) ExampleFunction) in
  let s := exec s (CSchedule v RandomFunction) in
  let s :=
    match Schedule (sec 30) (UserCallback CancelledEvent) s with
    | Some (id, s') => Cancel id s'
    | None => s
    end in
  let s := Stop (sec 100) s in
  let '(tr, s, fin) := Run body fuel s in
  (tr, Destroy s, fin).

End sample_simulator.

(** * Properties *)

(** ** Fixed-width integers *)

Section IntFacts.
Import Int.

Lemma to_int64_range (z : Z) : int64_range (to_int64 z).
Proof.
  unfold int64_range, to_int64.
  pose proof (Z.mod_pos_bound (z + 2 ^ 63) (2 ^ 64) ltac:(lia)). lia.
Qed.

Lemma to_int64_id (z : Z) : int64_range z -> to_int64 z = z.
Proof.
  unfold int64_range, to_int64. intros H.
  rewrite Z.mod_small by lia. lia.
Qed.

Lemma to_int64_eqm (a b : Z) :
  (a - b) mod 2 ^ 64 = 0 -> to_int64 a = to_int64 b.
Proof.
  unfold to_int64. intros H.
  apply Z.mod_divide in H; [| lia]. destruct H as [k Hk].
  replace (a + 2 ^ 63) with (b + 2 ^ 63 + k * 2 ^ 64) by lia.
  now rewrite Z.mod_add by lia.
Qed.

Lemma to_int64_congr (a : Z) : (to_int64 a - a) mod 2 ^ 64 = 0.
Proof.
  unfold to_int64.
  rewrite (Z.mod_eq (a + 2 ^ 63) (2 ^ 64)) by lia.
  replace (a + 2 ^ 63 - 2 ^ 64 * ((a + 2 ^ 63) / 2 ^ 64) - 2 ^ 63 - a)
    with (- ((a + 2 ^ 63) / 2 ^ 64) * 2 ^ 64) by lia.
  apply Z.mod_mul. lia.
Qed.

Lemma to_int64_add_l (a b : Z) : to_int64 (to_int64 a + b) = to_int64 (a + b).
Proof.
  apply to_int64_eqm.
  replace (to_int64 a + b - (a + b)) with (to_int64 a - a) by lia.
  apply to_int64_congr.
Qed.

Lemma to_int64_add_r (a b : Z) : to_int64 (a + to_int64 b) = to_int64 (a + b).
Proof. rewrite Z.add_comm, to_int64_add_l. f_equal. lia. Qed.

Lemma to_int64_sub_l (a b : Z) : to_int64 (to_int64 a - b) = to_int64 (a - b).
Proof.
  replace (to_int64 a - b) with (to_int64 a + - b) by lia.
  now rewrite to_int64_add_l.
Qed.

Lemma to_int64_sub_r (a b : Z) : to_int64 (a - to_int64 b) = to_int64 (a - b).
Proof.
  apply to_int64_eqm.
  replace (a - to_int64 b - (a - b)) with (- (to_int64 b - b)) by lia.
  pose proof (to_int64_congr b) as H.
  apply Z.mod_divide in H; [| lia]. destruct H as [k Hk].
  rewrite Hk. replace (- (k * 2 ^ 64)) with ((- k) * 2 ^ 64) by lia.
  apply Z.mod_mul. lia.
Qed.

Lemma to_int64_of_uint64 (z : Z) : to_int64 (to_uint64 z) = to_int64 z.
Proof.
  apply to_int64_eqm. unfold to_uint64.
  rewrite (Z.mod_eq z (2 ^ 64)) by lia.
  replace (z - 2 ^ 64 * (z / 2 ^ 64) - z) with (- (z / 2 ^ 64) * 2 ^ 64) by lia.
  apply Z.mod_mul. lia.
Qed.

Lemma to_uint64_id (z : Z) : 0 <= z < 2 ^ 64 -> to_uint64 z = z.
Proof. intros H. unfold to_uint64. now rewrite Z.mod_small. Qed.

End IntFacts.

(** ** The Time class *)

Module nstime_facts.
Import nstime.

(** C10. For the zero Time, [IsNegative] and [IsPositive] are both true
    (they test [<= 0] and [>= 0]) while [IsStrictlyNegative] and
    [IsStrictlyPositive] are both false; so [IsNegative] is not the negation
    of [IsPositive].  More generally the two non-strict tests agree exactly
    on the zero Time. *)
Theorem zero_is_negative_and_positive :
  IsNegative (Time_int64 0) = true
  /\ IsPositive (Time_int64 0) = true
  /\ IsStrictlyNegative (Time_int64 0) = false
  /\ IsStrictlyPositive (Time_int64 0) = false
  /\ IsNegative (Time_int64 0) <> negb (IsPositive (Time_int64 0))
  /\ (forall t : Time, IsNegative t = (m_data t <=? 0))
  /\ (forall t : Time, IsPositive t = (0 <=? m_data t))
  /\ (forall t : Time,
        IsNegative t && IsPositive t = true <-> m_data t = 0)
  /\ (forall t : Time, IsStrictlyNegative t = negb (IsPositive t))
  /\ (forall t : Time, IsStrictlyPositive t = negb (IsNegative t)).
Proof.
  repeat split; try reflexivity; try discriminate.
  - intros t. unfold IsPositive. apply Z.geb_leb.
  - unfold IsNegative, IsPositive. rewrite Z.geb_leb.
    intros H. apply andb_prop in H. lia.
  - intros H. unfold IsNegative, IsPositive. rewrite H. reflexivity.
  - intros t. unfold IsStrictlyNegative, IsPositive.
    rewrite Z.geb_leb. lia.
  - intros t. unfold IsStrictlyPositive, IsNegative.
    rewrite Z.gtb_ltb. lia.
Qed.


(** *** Order and additive group on the raw ticks *)

Lemma Time_eta (t : Time) : mkTime (m_data t) = t.
Proof. now destruct t. Qed.

Lemma op_add_ticks (a b : Time) :
  m_data (op_add a b) = to_int64 (m_data a + m_data b).
Proof. reflexivity. Qed.

Lemma op_sub_ticks (a b : Time) :
  m_data (op_sub a b) = to_int64 (m_data a - m_data b).
Proof. reflexivity. Qed.

Lemma op_add_assoc (a b c : Time) :
  op_add (op_add a b) c = op_add a (op_add b c).
Proof.
  unfold op_add, Time_int64. cbn [m_data]. f_equal.
  rewrite to_int64_add_l, to_int64_add_r. f_equal. lia.
Qed.

Lemma Compare_spec (a b : Time) :
  Compare a b =
  match m_data a ?= m_data b with Lt => -1 | Eq => 0 | Gt => 1 end.
Proof.
  unfold Compare.
  destruct (Z.compare_spec (m_data a) (m_data b)) as [H | H | H].
  - rewrite H, Z.ltb_irrefl, Z.eqb_refl. reflexivity.
  - apply Z.ltb_lt in H. now rewrite H.
  - assert ((m_data a <? m_data b) = false) as -> by lia.
    assert ((m_data a =? m_data b) = false) as -> by lia. reflexivity.
Qed.

(** Reading live objects does not involve the resolution of the world. *)
Lemma on_objects_resolution {A} (f : Time -> Time -> A) (r : Resolution)
    (w : World) (p q : addr) :
  on_objects f (with_resolution r w) p q = on_objects f w p q.
Proof. reflexivity. Qed.

(** C9. For all Times [a], [b] (and [c]) [Compare] returns -1, 0 or +1
    exactly according to the order of the tick values, the six relational
    operators are the order relations of the tick values, [+], [-], [+=]
    and [-=] are the operations of the additive group of the 64-bit ticks
    (sums modulo [2^64], exact whenever the result is representable), [Abs],
    [Min] and [Max] are absolute value, minimum and maximum of the tick
    values, and the result of none of them on live objects changes when
    the global resolution of the world is replaced by another one. *)
Theorem order_and_group_on_ticks (a b c : Time)
    (Ha : int64_range (m_data a)) (Hb : int64_range (m_data b))
    (Hc : int64_range (m_data c)) :
  ((Compare a b = -1 <-> m_data a < m_data b)
   /\ (Compare a b = 0 <-> m_data a = m_data b)
   /\ (Compare a b = 1 <-> m_data b < m_data a)
   /\ Compare b a = - Compare a b)
  /\ ((op_eq a b = true <-> m_data a = m_data b)
      /\ (op_ne a b = true <-> m_data a <> m_data b)
      /\ (op_le a b = true <-> m_data a <= m_data b)
      /\ (op_ge a b = true <-> m_data b <= m_data a)
      /\ (op_lt a b = true <-> m_data a < m_data b)
      /\ (op_gt a b = true <-> m_data b < m_data a))
  /\ (m_data (op_add a b) = to_int64 (m_data a + m_data b)
      /\ m_data (op_sub a b) = to_int64 (m_data a - m_data b)
      /\ (int64_range (m_data a + m_data b) ->
          m_data (op_add a b) = m_data a + m_data b)
      /\ (int64_range (m_data a - m_data b) ->
          m_data (op_sub a b) = m_data a - m_data b)
      /\ op_add (op_add a b) c = op_add a (op_add b c)
      /\ op_add a b = op_add b a
      /\ op_add a (Time_int64 0) = a
      /\ op_sub a a = Time_int64 0
      /\ op_sub a b = op_add a (op_sub (Time_int64 0) b)
      /\ op_add (op_sub a b) b = a
      /\ op_add_assign a b = op_add a b
      /\ op_sub_assign a b = op_sub a b)
  /\ (m_data (Abs a) = to_int64 (Z.abs (m_data a))
      /\ (m_data a <> INT64_MIN -> m_data (Abs a) = Z.abs (m_data a))
      /\ m_data (Max a b) = Z.max (m_data a) (m_data b)
      /\ m_data (Min a b) = Z.min (m_data a) (m_data b))
  /\ (forall (r : Resolution) (w : World) (p q : addr),
        on_objects Compare (with_resolution r w) p q
        = on_objects Compare w p q
        /\ on_objects op_eq (with_resolution r w) p q
           = on_objects op_eq w p q
        /\ on_objects op_ne (with_resolution r w) p q
           = on_objects op_ne w p q
        /\ on_objects op_le (with_resolution r w) p q
           = on_objects op_le w p q
        /\ on_objects op_ge (with_resolution r w) p q
           = on_objects op_ge w p q
        /\ on_objects op_lt (with_resolution r w) p q
           = on_objects op_lt w p q
        /\ on_objects op_gt (with_resolution r w) p q
           = on_objects op_gt w p q
        /\ on_objects op_add (with_resolution r w) p q
           = on_objects op_add w p q
        /\ on_objects op_sub (with_resolution r w) p q
           = on_objects op_sub w p q
        /\ on_objects op_add_assign (with_resolution r w) p q
           = on_objects op_add_assign w p q
        /\ on_objects op_sub_assign (with_resolution r w) p q
           = on_objects op_sub_assign w p q
        /\ on_objects (fun x _ => Abs x) (with_resolution r w) p q
           = on_objects (fun x _ => Abs x) w p q
        /\ on_objects Max (with_resolution r w) p q
           = on_objects Max w p q
        /\ on_objects Min (with_resolution r w) p q
           = on_objects Min w p q).
Proof.
  destruct a as [x], b as [y], c as [z]. cbn [m_data] in *.
  split; [| split; [| split; [| split]]].
  - rewrite !Compare_spec. cbn [m_data]. rewrite (Z.compare_antisym x y).
    destruct (Z.compare_spec x y) as [H | H | H]; cbn;
      repeat split; intros; try lia; try discriminate.
  - unfold op_eq, op_ne, op_le, op_ge, op_lt, op_gt. cbn [m_data].
    rewrite Z.geb_leb, Z.gtb_ltb, negb_true_iff. repeat split; lia.
  - unfold op_add, op_sub, op_add_assign, op_sub_assign, Time_int64.
    cbn [m_data].
    repeat split; try reflexivity.
    + apply to_int64_id.
    + apply to_int64_id.
    + f_equal. rewrite to_int64_add_l, to_int64_add_r. f_equal. lia.
    + f_equal. f_equal. lia.
    + f_equal. rewrite (to_int64_id 0) by (unfold int64_range; lia).
      rewrite Z.add_0_r. now apply to_int64_id.
    + f_equal. rewrite Z.sub_diag. reflexivity.
    + f_equal. rewrite (to_int64_id 0) by (unfold int64_range; lia).
      rewrite to_int64_add_r. f_equal; lia.
    + f_equal. rewrite to_int64_add_l.
      replace (x - y + y) with x by lia. now apply to_int64_id.
  - unfold Abs, Max, Min, Time_int64, Time_copy, INT64_MIN.
    cbn [m_data]. unfold int64_range in *.
    repeat split.
    + destruct (Z.ltb_spec x 0); f_equal; lia.
    + intros Hmin. destruct (Z.ltb_spec x 0);
        rewrite to_int64_id; unfold int64_range; lia.
    + destruct (Z.ltb_spec x y); cbn [m_data]; lia.
    + rewrite Z.gtb_ltb. destruct (Z.ltb_spec y x); cbn [m_data]; lia.
  - intros r w p q. repeat split.
Qed.

(** The order and group laws at 2, -5 and 7 ticks. *)
Lemma order_and_group_on_ticks_witness :
  int64_range 2 /\ int64_range (-5) /\ int64_range 7
  /\ Compare (mkTime 2) (mkTime (-5)) = 1
  /\ op_add (mkTime 2) (mkTime (-5)) = mkTime (-3)
  /\ op_add (op_sub (mkTime 2) (mkTime (-5))) (mkTime (-5)) = mkTime 2
  /\ m_data (Max (mkTime 2) (mkTime (-5))) = 2.
Proof.
  assert (H2 : int64_range 2) by (unfold int64_range; lia).
  assert (H5 : int64_range (-5)) by (unfold int64_range; lia).
  assert (H7 : int64_range 7) by (unfold int64_range; lia).
  pose proof (order_and_group_on_ticks (mkTime 2) (mkTime (-5)) (mkTime 7)
                H2 H5 H7) as (HC & _ & HG & HA & _).
  destruct HC as (_ & _ & HC & _).
  destruct HG as (_ & _ & _ & _ & _ & _ & _ & _ & _ & HG & _).
  destruct HA as (_ & _ & HM & _).
  split; [exact H2 |]. split; [exact H5 |]. split; [exact H7 |].
  split; [apply HC; cbn; lia |].
  split; [reflexivity |].
  split; [exact HG |].
  rewrite HM. reflexivity.
Defined.


(** *** Integer conversions there and back *)

(** The three shapes of an entry of the conversion table. *)
Lemma SetResolution_info_cases (current u : Unit) :
  let i := SetResolution_info current u in
  (power u = power current
   /\ toMul i = true /\ fromMul i = true /\ factor i = 1)
  \/ (power current < power u
      /\ toMul i = false /\ fromMul i = true
      /\ factor i = 10 ^ (power u - power current))
  \/ (power u < power current
      /\ toMul i = true /\ fromMul i = false
      /\ factor i = 10 ^ (power current - power u)).
Proof.
  unfold SetResolution_info.
  destruct (Z.eqb_spec (power u - power current) 0) as [H0 | H0].
  - left. cbn. rewrite H0. repeat split. lia.
  - destruct (Z.ltb_spec 0 (power u - power current)) as [Hp | Hp].
    + right; left. cbn. rewrite Z.abs_eq by lia. repeat split. lia.
    + right; right. cbn. rewrite Z.abs_neq by lia. repeat split; try lia.
      f_equal. lia.
Qed.

Lemma factor_pos (current u : Unit) :
  0 < factor (SetResolution_info current u).
Proof.
  unfold SetResolution_info.
  destruct (_ =? _); [| destruct (_ <? _)]; cbn;
    apply Z.pow_pos_nonneg; lia.
Qed.

(** Multiplying and dividing back, without overflow. *)
Lemma mul_then_div (f n : Z) :
  0 < f -> 0 <= n -> n * f < 2 ^ 63 ->
  to_int64 (to_uint64 (to_uint64 (to_int64 (to_uint64 n * f)) / f)) = n.
Proof.
  intros Hf Hn Hnf.
  assert (n <= n * f) by nia.
  rewrite (to_uint64_id n) by lia.
  rewrite (to_int64_id (n * f)) by (unfold int64_range; lia).
  rewrite (to_uint64_id (n * f)) by lia.
  rewrite Z.div_mul by lia.
  rewrite (to_uint64_id n) by lia.
  apply to_int64_id. unfold int64_range. lia.
Qed.

(** Dividing and multiplying back: the remainder is lost. *)
Lemma div_then_mul (f n : Z) :
  0 < f -> 0 <= n < 2 ^ 63 ->
  to_int64 (to_uint64 (to_uint64 (to_uint64 (to_int64 (to_uint64 n / f)) * f)))
  = n - n mod f.
Proof.
  intros Hf Hn.
  pose proof (Z.mod_pos_bound n f Hf) as Hm.
  pose proof (Z.div_mod n f ltac:(lia)) as Hd.
  assert (0 <= n / f) by (apply Z.div_pos; lia).
  assert (n / f <= n) by (apply Z.div_le_upper_bound; nia).
  assert (Hq : n / f * f = n - n mod f) by lia.
  rewrite (to_uint64_id n) by lia.
  rewrite (to_int64_id (n / f)) by (unfold int64_range; lia).
  rewrite (to_uint64_id (n / f)) by lia.
  rewrite Hq.
  rewrite !(to_uint64_id (n - n mod f)) by lia.
  apply to_int64_id. unfold int64_range. lia.
Qed.

(** C3, as the code has it.  Under every resolution and for every unit [U]
    and every tick count [N] of the [int64_t] range: when [U] is the unit of
    the resolution, [ToInteger] followed by [FromInteger] gives [N] back;
    when [U] is finer than the resolution, [N] is not negative and the
    amount [N * factor] fits the [int64_t], it gives [N] back; when [U] is
    coarser and [N] is not negative, it gives [N] rounded down to a multiple
    of the factor, which is less than one unit of [U] below [N]. *)
Theorem FromInteger_ToInteger_roundtrip (current U : Unit) (N : Z)
    (HN : int64_range N) :
  let r := SetResolution_table current in
  let f := factor (PeekInformation r U) in
  (U = current -> roundtrip r (mkTime N) U = mkTime N)
  /\ (power U < power current -> 0 <= N -> N * f <= INT64_MAX ->
      roundtrip r (mkTime N) U = mkTime N)
  /\ (power current < power U -> 0 <= N ->
      m_data (roundtrip r (mkTime N) U) = N - N mod f
      /\ N - f < m_data (roundtrip r (mkTime N) U) <= N).
Proof.
  intros r f. subst r f.
  unfold roundtrip, FromInteger, ToInteger, PeekInformation, Time_uint64,
    INT64_MAX.
  cbn [info SetResolution_table m_data].
  pose proof (factor_pos current U) as Hf.
  destruct (SetResolution_info_cases current U)
    as [(Hp & Ht & Hfr & Hfa) | [(Hp & Ht & Hfr & Hfa) | (Hp & Ht & Hfr & Hfa)]];
    cbn zeta in *; rewrite Ht, Hfr; unfold int64_range in HN.
  - split; [| split]; try lia.
    intros _. f_equal. rewrite Hfa, !Z.mul_1_r.
    unfold to_uint64. rewrite !Z.mod_mod by lia.
    fold (to_uint64 N). rewrite to_int64_of_uint64.
    fold (to_uint64 (to_int64 N)). rewrite to_int64_of_uint64.
    rewrite (to_int64_id N) by (unfold int64_range; lia).
    apply to_int64_id. unfold int64_range. lia.
  - split; [| split]; try lia.
    + intros ->. lia.
    + intros _ H0.
      pose proof (div_then_mul _ N Hf ltac:(lia)) as Hr.
      pose proof (Z.mod_pos_bound N _ Hf).
      rewrite Hr. lia.
  - split; [| split]; try lia.
    + intros ->. lia.
    + intros _ H0 Hfit. f_equal. apply mul_then_div; lia.
Qed.

(** The round trip at 1500 ns under nanosecond resolution, through
    microseconds. *)
Lemma FromInteger_ToInteger_roundtrip_witness :
  int64_range 1500
  /\ m_data (roundtrip (SetResolution_table Time_NS) (mkTime 1500) Time_US)
     = 1000.
Proof.
  assert (H : int64_range 1500) by (unfold int64_range; lia).
  split; [exact H |].
  destruct (FromInteger_ToInteger_roundtrip Time_NS Time_US 1500 H)
    as (_ & _ & Hc).
  destruct (Hc ltac:(cbn; lia) ltac:(lia)) as [-> _]. reflexivity.
Defined.

(** C3, as the claim states it, fails: under nanosecond resolution the
    femtosecond is finer than the resolution, [2^62] ticks are
    representable, but [2^62 * 10^6] is [0] modulo [2^64], so the round trip
    returns 0 ticks. *)
Lemma roundtrip_not_exact_for_every_tick_count :
  int64_range (2 ^ 62)
  /\ power Time_FS <= power Time_NS
  /\ ToInteger SetDefaultNsResolution (mkTime (2 ^ 62)) Time_FS = 0
  /\ roundtrip SetDefaultNsResolution (mkTime (2 ^ 62)) Time_FS = mkTime 0
  /\ ~ (forall (current U : Unit) (N : Z),
          int64_range N -> power U <= power current ->
          roundtrip (SetResolution_table current) (mkTime N) U = mkTime N).
Proof.
  assert (H : int64_range (2 ^ 62)) by (unfold int64_range; lia).
  split; [exact H |].
  split; [cbn; lia |].
  split; [vm_compute; reflexivity |].
  split; [vm_compute; reflexivity |].
  intros Hall.
  specialize (Hall Time_NS Time_FS (2 ^ 62) H ltac:(cbn; lia)).
  vm_compute in Hall. discriminate Hall.
Qed.

(** The same round trip on a negative Time: -1 ns through picoseconds
    comes back as a large positive tick count, because [FromInteger] takes
    its amount as [uint64_t] and divides unsigned. *)
Example roundtrip_negative_through_finer_unit :
  ToInteger SetDefaultNsResolution (mkTime (-1)) Time_PS = -1000
  /\ roundtrip SetDefaultNsResolution (mkTime (-1)) Time_PS
     = mkTime 18446744073709550.
Proof. split; vm_compute; reflexivity. Qed.


(** *** Conversion from a 64.64 value *)

Lemma wrap128_range (z : Z) : range128 (wrap128 z).
Proof.
  unfold range128, wrap128.
  pose proof (Z.mod_pos_bound (z + 2 ^ 127) (2 ^ 128) ltac:(lia)). lia.
Qed.

Lemma From_scaled_range (r : Resolution) (x : int64x64_t) (u : Unit) :
  range128 (From_scaled r x u).
Proof.
  unfold From_scaled, MulByInvert, Mul.
  destruct (fromMul _); apply wrap128_range.
Qed.

(** The high word of a 128-bit value is its quotient by [2^64]. *)
Lemma GetHigh_floor (x : int64x64_t) :
  range128 x -> GetHigh x = x / 2 ^ 64.
Proof.
  unfold range128, GetHigh. intros H.
  rewrite Z.shiftr_div_pow2 by lia.
  apply to_int64_id. unfold int64_range.
  split.
  - apply Z.div_le_lower_bound; lia.
  - apply Z.div_lt_upper_bound; lia.
Qed.

Lemma wrap128_id (z : Z) : range128 z -> wrap128 z = z.
Proof.
  unfold range128, wrap128. intros H.
  rewrite Z.mod_small by lia. lia.
Qed.

(** The multiplier of a unit at least as coarse as the resolution is the
    integer factor. *)
Lemma SetResolution_info_timeFrom (current u : Unit) :
  power current <= power u ->
  let i := SetResolution_info current u in
  fromMul i = true /\ timeFrom i = of_int (factor i)
  /\ 1 <= factor i <= 10 ^ 15.
Proof.
  destruct current, u; intros H; try (cbn in H; lia);
    vm_compute; repeat split; congruence.
Qed.

Lemma Mul_of_int (x f : Z) :
  0 <= f < 2 ^ 63 -> Mul x (of_int f) = wrap128 (x * f).
Proof.
  intros H. unfold Mul, of_int, make.
  rewrite (wrap128_id (f * 2 ^ 64 + 0)) by (unfold range128; lia).
  rewrite Z.shiftr_div_pow2 by lia. f_equal.
  replace (x * (f * 2 ^ 64 + 0)) with (x * f * 2 ^ 64) by ring.
  apply Z.div_mul. lia.
Qed.

(** C2, as the code has it.  For every resolution table, every 64.64 value
    and every unit, [From] multiplies by the 64.64 multiplier of the unit
    ([operator*=], or [MulByInvert] for a unit that is converted by
    division) and keeps the high word of the result: the tick count is the
    result rounded down to a whole tick.  It is the nearest tick exactly
    when the fraction is below one half, and one tick below the nearest
    one otherwise.  With the table of a resolution and a unit at least as
    coarse as it, the multiplier is the integer factor of the unit and the
    tick count is the value times the factor, rounded down, whenever that
    product fits; whole amounts are converted exactly.  The factory
    [Seconds] is [From] at the unit second: one second is [10^9] ticks
    at nanosecond resolution. *)
Theorem From_keeps_the_integer_part (r : Resolution) (x : int64x64_t)
    (u : Unit) :
  let i := PeekInformation r u in
  let p := From_scaled r x u in
  let ticks := m_data (From r x u) in
  ticks = GetHigh p
  /\ (fromMul i = true -> p = Mul x (timeFrom i))
  /\ (fromMul i = false -> p = MulByInvert x (timeFrom i))
  /\ 2 ^ 64 * ticks <= p < 2 ^ 64 * (ticks + 1)
  /\ (p mod 2 ^ 64 < 2 ^ 63 -> ticks = nearest p)
  /\ (2 ^ 63 <= p mod 2 ^ 64 -> ticks = nearest p - 1)
  /\ (forall current : Unit,
        r = SetResolution_table current -> power current <= power u ->
        factor i = 10 ^ (power u - power current)
        /\ timeFrom i = of_int (factor i)
        /\ p = wrap128 (x * factor i)
        /\ (range128 (x * factor i) ->
            ticks = x * factor i / 2 ^ 64
            /\ 2 ^ 64 * ticks <= x * factor i < 2 ^ 64 * (ticks + 1))
        /\ (forall v : Z,
              x = of_int v -> int64_range v -> int64_range (v * factor i) ->
              ticks = v * factor i))
  /\ Seconds r x = From r x Time_S
  /\ Seconds SetDefaultNsResolution (of_int 1) = mkTime (10 ^ 9).
Proof.
  intros i p ticks. subst ticks. unfold From, Time_int64x64. cbn [m_data].
  pose proof (From_scaled_range r x u) as Hr. fold p in Hr. fold p.
  split; [reflexivity |].
  split; [intros Hm; subst p; unfold From_scaled; fold i; now rewrite Hm |].
  split; [intros Hm; subst p; unfold From_scaled; fold i; now rewrite Hm |].
  rewrite (GetHigh_floor p Hr).
  pose proof (Z.div_mod p (2 ^ 64) ltac:(lia)) as Hd.
  pose proof (Z.mod_pos_bound p (2 ^ 64) ltac:(lia)) as Hm.
  unfold nearest.
  split; [lia |].
  split; [| split; [| split; [| split; [reflexivity |]]]].
  - intros Hfrac.
    apply Z.div_unique with (r := p mod 2 ^ 64 + 2 ^ 63); lia.
  - intros Hfrac.
    assert (Hn : (p + 2 ^ 63) / 2 ^ 64 = p / 2 ^ 64 + 1).
    { symmetry.
      apply Z.div_unique with (r := p mod 2 ^ 64 - 2 ^ 63); lia. }
    lia.
  - intros current -> Hpow.
    change (PeekInformation (SetResolution_table current) u)
      with (SetResolution_info current u) in i.
    destruct (SetResolution_info_timeFrom current u Hpow)
      as (Hmul & Hfrom & Hf1 & Hf2).
    fold i in Hmul, Hfrom, Hf1, Hf2.
    assert (Hfac : factor i = 10 ^ (power u - power current)).
    { destruct (SetResolution_info_cases current u)
        as [(He & _ & _ & H1) | [(_ & _ & _ & H1) | (Hlt & _)]].
      - fold i in H1. rewrite H1, He, Z.sub_diag. reflexivity.
      - exact H1.
      - lia. }
    assert (Hp : p = wrap128 (x * factor i)).
    { subst p. unfold From_scaled.
      change (PeekInformation (SetResolution_table current) u) with i.
      rewrite Hmul, Hfrom. apply Mul_of_int. lia. }
    split; [exact Hfac |]. split; [exact Hfrom |]. split; [exact Hp |].
    split.
    + intros Hfit. rewrite Hp, (wrap128_id _ Hfit).
      split; [reflexivity |].
      pose proof (Z.div_mod (x * factor i) (2 ^ 64) ltac:(lia)).
      pose proof (Z.mod_pos_bound (x * factor i) (2 ^ 64) ltac:(lia)).
      lia.
    + intros v -> Hv Hvf. unfold int64_range in Hv, Hvf.
      rewrite Hp. unfold of_int, make.
      rewrite (wrap128_id (v * 2 ^ 64 + 0)) by (unfold range128; lia).
      replace ((v * 2 ^ 64 + 0) * factor i)
        with (v * factor i * 2 ^ 64) by ring.
      rewrite wrap128_id by (unfold range128; lia).
      apply Z.div_mul. lia.
  - vm_compute. reflexivity.
Qed.

(** C2, as the claim states it, fails: under nanosecond resolution
    three quarters of a nanosecond (integer word 0, fraction word
    [3 * 2^62]) become 0 ticks, while the nearest tick is 1. *)
Lemma From_does_not_round_to_nearest :
  From_scaled SetDefaultNsResolution (make 0 (3 * 2 ^ 62)) Time_NS
  = make 0 (3 * 2 ^ 62)
  /\ m_data (From SetDefaultNsResolution (make 0 (3 * 2 ^ 62)) Time_NS) = 0
  /\ nearest (From_scaled SetDefaultNsResolution (make 0 (3 * 2 ^ 62)) Time_NS)
     = 1
  /\ ~ (forall (r : Resolution) (x : int64x64_t) (u : Unit),
          m_data (From r x u) = nearest (From_scaled r x u)).
Proof.
  split; [vm_compute; reflexivity |].
  split; [vm_compute; reflexivity |].
  split; [vm_compute; reflexivity |].
  intros Hall.
  specialize (Hall SetDefaultNsResolution (make 0 (3 * 2 ^ 62)) Time_NS).
  vm_compute in Hall. discriminate Hall.
Qed.


(** *** The one-shot change of resolution *)












(** The range shrinks with a finer unit: a live Time of [2^62] ns holds 0
    ticks after the change to femtoseconds, the product by [10^6] being
    taken modulo [2^64]. *)
Example SetResolution_overflows :
  match
    SetResolution Time_FS (run_ops [OpCtor (mkTime (2 ^ 62))] initial_world)
  with
  | Ok w' => map snd (map_to_list (w_heap w')) = [mkTime 0]
  | Fatal _ => False
  end.
Proof. vm_compute. reflexivity. Qed.

(** Two Time objects of 10 ns and 25 ns and a change to microseconds: both
    become 0 ticks, and a change back to nanoseconds is fatal. *)
Example SetResolution_twice :
  let w := run_ops [OpCtor (mkTime 10); OpCtor (mkTime 25)] initial_world in
  match SetResolution Time_US w with
  | Ok w' =>
      map snd (map_to_list (w_heap w')) = [mkTime 0; mkTime 0]
      /\ is_fatal (SetResolution Time_NS w') = true
  | Fatal _ => False
  end.
Proof. vm_compute. split; reflexivity. Qed.

End nstime_facts.

(** ** The federate endpoint *)

Module fncs_application_facts.
Import fncs_application.

(** *** Strings *)

Lemma list_ascii_of_string_app (s1 s2 : string) :
  list_ascii_of_string (s1 +:+ s2)
  = list_ascii_of_string s1 ++ list_ascii_of_string s2.
Proof.
  induction s1 as [| c s1 IH]; simpl; [reflexivity | f_equal; exact IH].
Qed.

Lemma list_ascii_of_string_length (s : string) :
  length (list_ascii_of_string s) = String.length s.
Proof. induction s as [| c s IH]; cbn; [reflexivity | now rewrite IH]. Qed.

Lemma bytes_of_length (s : string) : length (bytes_of s) = String.length s.
Proof.
  unfold bytes_of. now rewrite length_map, list_ascii_of_string_length.
Qed.

Lemma string_length_app (s1 s2 : string) :
  String.length (s1 +:+ s2) = (String.length s1 + String.length s2)%nat.
Proof.
  induction s1 as [| c s1 IH]; simpl; [reflexivity | f_equal; exact IH].
Qed.

Lemma substring_all (s : string) : substring 0 (String.length s) s = s.
Proof.
  induction s as [| c s IH]; simpl; [reflexivity | f_equal; exact IH].
Qed.

Lemma substring_prefix (t r : string) :
  substring 0 (String.length t) (t +:+ r) = t.
Proof.
  induction t as [| c t IH]; simpl.
  - destruct r; reflexivity.
  - f_equal. exact IH.
Qed.

Lemma substring_skip (t r : string) (n m : nat) :
  substring (String.length t + n) m (t +:+ r) = substring n m r.
Proof. induction t as [| c t IH]; simpl; [reflexivity | exact IH]. Qed.

(** *** The search for the delimiter *)

Lemma find_from_None (c : ascii) (s : string) (i : nat) :
  find_from c s i = None <-> ~ occurs c s.
Proof.
  unfold occurs. revert i.
  induction s as [| a s IH]; intros i; cbn.
  - split; [intros _ [] | reflexivity].
  - destruct (Ascii.eqb_spec a c) as [-> | Hne].
    + split; [discriminate | intros H; exfalso; apply H; now left].
    + rewrite IH. split.
      * intros H [Ha | Hs]; [now apply Hne | now apply H].
      * intros H Hs. apply H. now right.
Qed.

(** A successful search cuts the string at the first occurrence. *)
Lemma find_from_Some (c : ascii) (s : string) (i k : nat) :
  find_from c s i = Some k ->
  exists t v : string,
    s = t +:+ String c v /\ ~ occurs c t /\ k = (i + String.length t)%nat.
Proof.
  unfold occurs. revert i.
  induction s as [| a s IH]; intros i; cbn; [discriminate |].
  destruct (Ascii.eqb_spec a c) as [-> | Hne].
  - intros [= <-]. exists EmptyString, s. cbn.
    repeat split; [tauto | lia].
  - intros H. destruct (IH _ H) as (t & v & -> & Ht & ->).
    exists (String a t), v. cbn.
    repeat split; [| lia].
    intros [Ha | Hin]; [now apply Hne | now apply Ht].
Qed.

Lemma find_from_app (c : ascii) (t v : string) (i : nat) :
  ~ occurs c t ->
  find_from c (t +:+ String c v) i = Some (i + String.length t)%nat.
Proof.
  unfold occurs. revert i.
  induction t as [| a t IH]; intros i Ht; simpl.
  - rewrite Ascii.eqb_refl. f_equal. lia.
  - destruct (Ascii.eqb_spec a c) as [-> | Hne].
    + exfalso. apply Ht. now left.
    + rewrite IH; [f_equal; lia |]. intros Hin. apply Ht. now right.
Qed.

Lemma find_0 (s : string) (c : ascii) : find s c 0 = find_from c s 0.
Proof. unfold find. now rewrite Nat.sub_0_r, substring_all. Qed.

(** The two [substr] calls of [HandleRead] on a string cut at [c]. *)
Lemma substr_topic (t v : string) (c : ascii) :
  substr (t +:+ String c v) 0 (String.length t) = t.
Proof.
  unfold substr. rewrite Nat.sub_0_r, string_length_app.
  rewrite Nat.min_l by lia. apply substring_prefix.
Qed.

Lemma substr_value (t v : string) (c : ascii) :
  substr_from (t +:+ String c v) (String.length t + 1) = v.
Proof.
  unfold substr_from. rewrite string_length_app. cbn [String.length].
  replace (String.length t + S (String.length v) - (String.length t + 1))%nat
    with (String.length v) by lia.
  rewrite substring_skip. cbn. apply substring_all.
Qed.


(** *** The payload that [Send] builds *)

Lemma bytes_of_app (s1 s2 : string) :
  bytes_of (s1 +:+ s2) = bytes_of s1 ++ bytes_of s2.
Proof. unfold bytes_of. now rewrite list_ascii_of_string_app, map_app. Qed.

Lemma payload_bytes (topic value : string) :
  payload topic value
  = bytes_of topic ++ [char_to_uint8_t "="%char] ++ bytes_of value.
Proof. unfold payload. now rewrite bytes_of_app. Qed.

(** [std::transform] overwrites exactly the cells it is pointed at. *)
Lemma transform_spec (src : string) (pre rest post : list byte) :
  length rest = String.length src ->
  transform src (pre ++ rest ++ post) (length pre)
  = pre ++ bytes_of src ++ post.
Proof.
  revert pre rest.
  induction src as [| c src IH]; intros pre rest Hlen.
  - destruct rest; [reflexivity | discriminate].
  - destruct rest as [| r rest]; [discriminate |].
    injection Hlen as Hlen. simpl transform.
    replace (length pre) with (length pre + 0)%nat at 1 by lia.
    rewrite insert_app_r. simpl.
    specialize (IH (pre ++ [char_to_uint8_t c]) rest Hlen).
    rewrite length_app, Nat.add_1_r in IH. simpl in IH.
    rewrite <- !app_assoc in IH. simpl in IH. exact IH.
Qed.

Lemma new_array_length (junk : nat -> byte) (n : nat) :
  length (new_array junk n) = n.
Proof. unfold new_array. now rewrite length_map, length_seq. Qed.

Lemma Send_packet_payload (junk : nat -> byte) (topic value : string) :
  Send_packet junk topic value = payload topic value.
Proof.
  unfold Send_packet. rewrite payload_bytes.
  set (n := (String.length topic + 1 + String.length value)%nat).
  pose proof (new_array_length junk n) as Hn.
  set (b0 := new_array junk n) in *.
  assert (Hsplit : b0 = take (String.length topic) b0
                        ++ drop (String.length topic) b0)
    by (symmetry; apply take_drop).
  assert (H1 : length (take (String.length topic) b0) = String.length topic)
    by (rewrite length_take; lia).
  assert (H2 : length (drop (String.length topic) b0)
               = S (String.length value))
    by (rewrite length_drop; lia).
  destruct (drop (String.length topic) b0) as [| x r3]; [discriminate |].
  injection H2 as H2.
  rewrite Hsplit.
  pose proof (transform_spec topic [] (take (String.length topic) b0)
                (x :: r3) H1) as Ht.
  simpl in Ht. rewrite Ht.
  replace (0 + String.length topic)%nat
    with (length (bytes_of topic) + 0)%nat
    by (rewrite bytes_of_length; lia).
  rewrite insert_app_r. simpl.
  pose proof (transform_spec value
                (bytes_of topic ++ [char_to_uint8_t "="%char]) r3 [] H2)
    as Hv.
  rewrite length_app, bytes_of_length in Hv. simpl in Hv.
  rewrite <- app_assoc in Hv. simpl in Hv.
  rewrite !app_nil_r in Hv.
  replace (length (bytes_of topic) + 0 + 1)%nat
    with (String.length topic + 1)%nat
    by (rewrite bytes_of_length; lia).
  rewrite Hv, <- app_assoc. simpl.
  apply take_ge.
  rewrite length_app. simpl. rewrite !bytes_of_length. lia.
Qed.

Lemma Send_effects (junk : nat -> byte) (app to : FncsApplication)
    (topic value : string) :
  fst (Send junk app to topic value)
  = TxTrace (payload topic value)
    :: match m_localAddress app, m_socket app with
       | AddressIpv4 _, Some _ =>
           [SendTo (payload topic value) 0 (GetLocalInet to)]
       | AddressIpv6 _, Some _ =>
           [SendTo (payload topic value) 0 (GetLocalInet6 to)]
       | _, _ => []
       end.
Proof.
  unfold Send. rewrite Send_packet_payload.
  destruct (m_localAddress app), (m_socket app); reflexivity.
Qed.

(** C6. For every topic and value (and whatever the fresh buffer held),
    [Send] builds the packet made of the topic bytes, one ['='] byte and the
    value bytes, nothing being escaped; the first effect of the call is the
    Tx trace hook on that packet, and the only transmission, if there is
    one, comes after it and carries the same packet: to the destination's
    local address and port, on the socket family of the sender's local
    address, when the sender has a socket.  On a sender without socket
    whose local address is IPv4 or IPv6 the call dies on the null socket,
    after the trace and without any transmission. *)
Theorem Send_builds_payload_and_traces_first (junk : nat -> byte)
    (app to : FncsApplication) (topic value : string) :
  Send_packet junk topic value
  = bytes_of topic ++ [char_to_uint8_t "="%char] ++ bytes_of value
  /\ payload topic value = Send_packet junk topic value
  /\ length (payload topic value)
     = (String.length topic + 1 + String.length value)%nat
  /\ fst (Send junk app to topic value)
     = TxTrace (payload topic value)
       :: match m_localAddress app, m_socket app with
          | AddressIpv4 _, Some _ =>
              [SendTo (payload topic value) 0 (GetLocalInet to)]
          | AddressIpv6 _, Some _ =>
              [SendTo (payload topic value) 0 (GetLocalInet6 to)]
          | _, _ => []
          end
  /\ (m_socket app = None -> m_localAddress app <> AddressInvalid ->
      Send junk app to topic value = ([TxTrace (payload topic value)], None))
  /\ CopyData (payload "volt" "120.5") = "volt=120.5"%string
  /\ payload "a=b" "c" = bytes_of "a=b=c".
Proof.
  split; [rewrite Send_packet_payload; apply payload_bytes |].
  split; [now rewrite Send_packet_payload |].
  split.
  { rewrite payload_bytes, length_app. simpl.
    rewrite !bytes_of_length. lia. }
  split; [apply Send_effects |].
  split; [| split; reflexivity].
  intros Hs Ha. unfold Send. rewrite Send_packet_payload, Hs.
  destruct (m_localAddress app); [contradiction | |]; reflexivity.
Qed.

(** *** The counter of [Send] *)

Lemma counted_can_send (app : FncsApplication) :
  can_send app -> can_send (counted app).
Proof. intros H. exact H. Qed.

Lemma Send_returns (junk : nat -> byte) (app to : FncsApplication)
    (topic value : string) :
  can_send app -> snd (Send junk app to topic value) = Some (counted app).
Proof.
  unfold can_send, Send. intros [Hs | Ha].
  - destruct (m_socket app); [| contradiction].
    destruct (m_localAddress app); reflexivity.
  - rewrite Ha. reflexivity.
Qed.

Lemma Send_all_cons (junk : nat -> byte) (app to : FncsApplication)
    (topic value : string)
    (calls : list (FncsApplication * string * string)) :
  can_send app ->
  Send_all junk app ((to, topic, value) :: calls)
  = (fst (Send junk app to topic value)
     ++ fst (Send_all junk (counted app) calls),
     snd (Send_all junk (counted app) calls)).
Proof.
  intros H. cbn [Send_all].
  pose proof (Send_returns junk app to topic value H) as Hr.
  destruct (Send junk app to topic value) as [e r]. cbn [fst snd] in *.
  subst r. now destruct (Send_all junk (counted app) calls).
Qed.

Lemma Send_all_returns (junk : nat -> byte)
    (calls : list (FncsApplication * string * string))
    (app : FncsApplication) :
  can_send app ->
  snd (Send_all junk app calls) = Some (Nat.iter (length calls) counted app).
Proof.
  revert app. induction calls as [| [[to topic] value] calls IH];
    intros app H; [reflexivity |].
  rewrite Send_all_cons by assumption. cbn [snd length].
  rewrite IH by now apply counted_can_send.
  now rewrite Nat.iter_succ_r.
Qed.

Lemma to_uint32_add_l (a b : Z) :
  to_uint32 (to_uint32 a + b) = to_uint32 (a + b).
Proof. unfold to_uint32. apply Zplus_mod_idemp_l. Qed.

Lemma counted_m_sent (n : nat) (app : FncsApplication) :
  0 <= m_sent app < 2 ^ 32 ->
  m_sent (Nat.iter n counted app) = to_uint32 (m_sent app + Z.of_nat n).
Proof.
  intros H. induction n as [| n IH].
  - change (Nat.iter 0 counted app) with app. rewrite Z.add_0_r.
    unfold to_uint32. now rewrite Z.mod_small.
  - rewrite Nat.iter_succ. unfold counted at 1. cbn [m_sent].
    rewrite IH, to_uint32_add_l. f_equal. lia.
Qed.

Lemma counted_m_sent_fits (n : nat) (app : FncsApplication) :
  0 <= m_sent app -> m_sent app + Z.of_nat n < 2 ^ 32 ->
  m_sent (Nat.iter n counted app) = m_sent app + Z.of_nat n.
Proof.
  intros H0 Hfit. rewrite counted_m_sent by lia.
  unfold to_uint32. apply Z.mod_small. lia.
Qed.

(** C7, as the code has it.  A call of [Send] on an endpoint that has its
    socket, or whose local address matches neither IPv4 nor IPv6 (where the
    only effect is the trace and nothing is transmitted), returns with the
    sent-counter incremented by exactly one in the arithmetic of the 32-bit
    counter.  Hence on such an endpoint, as long as the counter fits its
    32 bits, after any run of calls the counter has grown by the number of
    calls, it equals that number when it started at 0, and it never
    decreases along the run. *)
Theorem Send_counts_every_call (junk : nat -> byte) (app : FncsApplication)
    (calls : list (FncsApplication * string * string))
    (Hcan : can_send app)
    (H0 : 0 <= m_sent app)
    (Hfit : m_sent app + Z.of_nat (length calls) < 2 ^ 32) :
  (forall (a to : FncsApplication) (topic value : string),
      can_send a ->
      exists a' : FncsApplication,
        snd (Send junk a to topic value) = Some a'
        /\ m_sent a' = to_uint32 (m_sent a + 1)
        /\ (0 <= m_sent a < 2 ^ 32 - 1 -> m_sent a' = m_sent a + 1)
        /\ (m_localAddress a = AddressInvalid ->
            fst (Send junk a to topic value)
            = [TxTrace (payload topic value)]))
  /\ (exists app' : FncsApplication,
        snd (Send_all junk app calls) = Some app'
        /\ m_sent app' = m_sent app + Z.of_nat (length calls)
        /\ (m_sent app = 0 -> m_sent app' = Z.of_nat (length calls)))
  /\ (forall c1 c2 : list (FncsApplication * string * string),
        calls = c1 ++ c2 ->
        exists a1 a2 : FncsApplication,
          snd (Send_all junk app c1) = Some a1
          /\ snd (Send_all junk app (c1 ++ c2)) = Some a2
          /\ m_sent a1 <= m_sent a2).
Proof.
  split; [| split].
  - intros a to topic value Ha. exists (counted a).
    split; [now apply Send_returns |].
    split; [reflexivity |]. split.
    + intros Hr. unfold counted, to_uint32. cbn [m_sent].
      apply Z.mod_small. lia.
    + intros Hinv. rewrite Send_effects, Hinv. reflexivity.
  - exists (Nat.iter (length calls) counted app).
    split; [now apply Send_all_returns |].
    rewrite counted_m_sent_fits by assumption. split; [reflexivity | lia].
  - intros c1 c2 ->. rewrite length_app, Nat2Z.inj_add in Hfit.
    exists (Nat.iter (length c1) counted app),
      (Nat.iter (length (c1 ++ c2)) counted app).
    split; [now apply Send_all_returns |].
    split; [now apply Send_all_returns |].
    rewrite !counted_m_sent_fits by (rewrite ?length_app; lia).
    rewrite length_app. lia.
Qed.

(** Three calls on a fresh endpoint without local address: nothing is
    transmitted and the counter is 3. *)
Lemma Send_counts_every_call_witness :
  can_send FncsApplication_new
  /\ 0 <= m_sent FncsApplication_new
  /\ m_sent FncsApplication_new + 3 < 2 ^ 32
  /\ exists app' : FncsApplication,
       snd (Send_all (fun _ => Byte.x00) FncsApplication_new
              [(FncsApplication_new, "volt", "120.5");
               (FncsApplication_new, "amp", "3");
               (FncsApplication_new, "", "")]%string)
       = Some app'
       /\ m_sent app' = 3.
Proof.
  assert (Hc : can_send FncsApplication_new) by (right; reflexivity).
  assert (H0 : 0 <= m_sent FncsApplication_new) by (cbn; lia).
  assert (H1 : m_sent FncsApplication_new
               + Z.of_nat (length [(FncsApplication_new, "volt", "120.5");
                                   (FncsApplication_new, "amp", "3");
                                   (FncsApplication_new, "", "")]%string)
               < 2 ^ 32) by (cbn; lia).
  split; [exact Hc |]. split; [exact H0 |]. split; [cbn; lia |].
  destruct (Send_counts_every_call (fun _ => Byte.x00) FncsApplication_new
              _ Hc H0 H1) as (_ & (app' & Hs & Hn & _) & _).
  exists app'. split; [exact Hs | exact Hn].
Defined.

(** C7, as the claim states it, fails: on an endpoint that was never
    started (no socket) and has an IPv4 local address, [Send] makes the
    trace and dies on the null socket before [++m_sent]; the call does not
    return and the counter is not incremented. *)
Lemma Send_without_socket_does_not_count :
  m_socket (SetLocal (AddressIpv4 1) 9 (SetName "meter" FncsApplication_new))
  = None
  /\ Send (fun _ => Byte.x00)
       (SetLocal (AddressIpv4 1) 9 (SetName "meter" FncsApplication_new))
       started_meter "volt" "120.5"
     = ([TxTrace (payload "volt" "120.5")], None)
  /\ ~ (forall (junk : nat -> byte) (app to : FncsApplication)
               (topic value : string),
          exists app' : FncsApplication,
            snd (Send junk app to topic value) = Some app'
            /\ m_sent app' = m_sent app + 1).
Proof.
  split; [reflexivity |]. split; [reflexivity |].
  intros Hall.
  destruct (Hall (fun _ => Byte.x00)
              (SetLocal (AddressIpv4 1) 9 (SetName "meter" FncsApplication_new))
              started_meter "volt"%string "120.5"%string) as (app' & Hs & _).
  discriminate Hs.
Qed.

(** The counter at its last value: on a started endpoint a call at
    [2^32 - 1] returns with the counter at 0. *)
Example Send_at_the_last_count :
  m_sent <$> snd (Send (fun _ => Byte.x00)
                    (mkApp "meter" (2 ^ 32 - 1) (m_socket started_meter)
                       (AddressIpv4 1) 9)
                    started_meter "volt" "120.5")
  = Some 0.
Proof. reflexivity. Qed.

(** *** Starting without a name *)

Lemma empty_spec (s : string) : empty s = true <-> s = EmptyString.
Proof. destruct s; cbn; split; congruence. Qed.

(** C8. Starting an endpoint whose name is empty is fatal, and starting an
    endpoint with any other name completes: the endpoint then has a socket
    whose receive callback is [HandleRead], bound to the local address and
    port when the local address is IPv4 or IPv6 and to an ephemeral one
    otherwise (an existing socket is kept), and its name, counter and local
    address are unchanged. *)
Theorem StartApplication_requires_name (app : FncsApplication) :
  (m_name app = EmptyString ->
   StartApplication app = Fatal "FncsApplication is missing name")
  /\ (is_fatal (StartApplication app) = true <-> m_name app = EmptyString)
  /\ (m_name app <> EmptyString ->
      exists socket : Socket,
        StartApplication app
        = Ok (mkApp (m_name app) (m_sent app) (Some socket)
                (m_localAddress app) (m_localPort app))
        /\ sock_recv_callback socket = true
        /\ sock_bound socket
           = match m_socket app with
             | Some s => sock_bound s
             | None =>
                 match m_localAddress app with
                 | AddressIpv4 _ =>
                     Some (InetSocketAddress (m_localAddress app)
                             (m_localPort app))
                 | AddressIpv6 _ =>
                     Some (Inet6SocketAddress (m_localAddress app)
                             (m_localPort app))
                 | AddressInvalid => None
                 end
             end).
Proof.
  unfold StartApplication.
  destruct (empty (m_name app)) eqn:He.
  - apply empty_spec in He. repeat split; tauto.
  - assert (Hne : m_name app <> EmptyString).
    { intros H. apply empty_spec in H. congruence. }
    split; [intros H; contradiction |].
    split; [split; [discriminate | intros H; contradiction] |].
    intros _. eexists. split; [reflexivity |]. split; [reflexivity |].
    cbn. destruct (m_socket app); [reflexivity |].
    destruct (m_localAddress app); reflexivity.
Qed.


(** *** Splitting an inbound payload *)

Lemma HandleRead_packet_cases (packet : Packet) :
  (~ occurs "="%char (CopyData packet)
   /\ HandleRead_packet packet = Fatal fatal_read)
  \/ (exists topic value : string,
        CopyData packet = topic +:+ String "="%char value
        /\ ~ occurs "="%char topic
        /\ HandleRead_packet packet = Ok (Publish topic value)).
Proof.
  unfold HandleRead_packet. rewrite find_0.
  destruct (find_from "="%char (CopyData packet) 0) as [k |] eqn:E.
  - right. destruct (find_from_Some _ _ _ _ E) as (t & v & Hs & Ht & ->).
    exists t, v. rewrite Hs. cbn [Nat.add].
    rewrite substr_topic, substr_value. auto.
  - left. apply find_from_None in E. auto.
Qed.

Lemma occurs_app_delim (topic value : string) :
  occurs "="%char (topic +:+ String "="%char value).
Proof.
  unfold occurs. rewrite list_ascii_of_string_app.
  apply in_or_app. right. now left.
Qed.

Lemma CopyData_bytes_of (s : string) : CopyData (bytes_of s) = s.
Proof.
  unfold CopyData, bytes_of, char_to_uint8_t. rewrite map_map.
  rewrite (map_ext _ (fun c => c)) by apply ascii_of_byte_of_ascii.
  rewrite map_id. apply string_of_list_ascii_of_string.
Qed.

(** The cut of a string at its first ['='] is unique. *)
Lemma first_delim_unique (t1 v1 t2 v2 : string) :
  ~ occurs "="%char t1 -> ~ occurs "="%char t2 ->
  t1 +:+ String "="%char v1 = t2 +:+ String "="%char v2 ->
  t1 = t2 /\ v1 = v2.
Proof.
  unfold occurs. revert t2.
  induction t1 as [| a t1 IH]; intros [| b t2] H1 H2; simpl; intros E.
  - injection E as ->. auto.
  - injection E as Hb _. exfalso. apply H2. left. now symmetry.
  - injection E as Ha _. exfalso. apply H1. now left.
  - injection E as -> E.
    destruct (IH t2) as [-> ->]; auto.
    + intros Hin. apply H1. now right.
    + intros Hin. apply H2. now right.
Qed.

Lemma HandleRead_all_good (pending : list Packet) :
  Forall (fun p => occurs "="%char (CopyData p)) pending ->
  snd (HandleRead pending) = Ok tt
  /\ length (fst (HandleRead pending)) = length pending.
Proof.
  induction 1 as [| p pending Hp _ IH]; [split; reflexivity |].
  simpl.
  destruct (HandleRead_packet_cases p) as [[Hno _] | (t & v & _ & _ & ->)];
    [contradiction |].
  destruct (HandleRead pending) as [effects r]. cbn in *.
  destruct IH as [-> ->]. auto.
Qed.

Lemma HandleRead_first_bad (good : list Packet) (bad : Packet)
    (rest : list Packet) :
  Forall (fun p => occurs "="%char (CopyData p)) good ->
  ~ occurs "="%char (CopyData bad) ->
  HandleRead (good ++ bad :: rest)
  = (fst (HandleRead good), Fatal fatal_read).
Proof.
  intros Hgood Hbad.
  induction Hgood as [| p good Hp _ IH]; simpl.
  - destruct (HandleRead_packet_cases bad)
      as [[_ ->] | (t & v & Hs & _ & _)]; [reflexivity |].
    exfalso. apply Hbad. rewrite Hs. apply occurs_app_delim.
  - destruct (HandleRead_packet_cases p) as [[Hno _] | (t & v & _ & _ & ->)];
      [contradiction |].
    rewrite IH. destruct (HandleRead good) as [effects r]. reflexivity.
Qed.

(** C5. For every inbound payload, [HandleRead] looks for the first ['=']:
    a payload without ['='] is fatal, and nothing of it is published;
    otherwise exactly one publication is made, whose topic is the bytes
    before the first ['='] and whose value is all the bytes after it.  Over
    the packets drained by one call: when all hold an ['='] each is
    published in order and the call returns, and at the first packet
    without ['='] the call is fatal after the publications of the packets
    before it. *)
Theorem HandleRead_splits_at_first_equals (packet : Packet) :
  let sdata := CopyData packet in
  (~ occurs "="%char sdata <-> HandleRead_packet packet = Fatal fatal_read)
  /\ (~ occurs "="%char sdata <-> is_fatal (HandleRead_packet packet) = true)
  /\ (occurs "="%char sdata <->
      exists topic value : string,
        HandleRead_packet packet = Ok (Publish topic value))
  /\ (forall topic value : string,
        ~ occurs "="%char topic ->
        sdata = topic +:+ String "="%char value ->
        HandleRead_packet packet = Ok (Publish topic value))
  /\ (forall e : Effect,
        HandleRead_packet packet = Ok e ->
        exists topic value : string,
          e = Publish topic value
          /\ sdata = topic +:+ String "="%char value
          /\ ~ occurs "="%char topic)
  /\ (forall pending : list Packet,
        Forall (fun p => occurs "="%char (CopyData p)) pending ->
        snd (HandleRead pending) = Ok tt
        /\ length (fst (HandleRead pending)) = length pending)
  /\ (forall good rest : list Packet,
        Forall (fun p => occurs "="%char (CopyData p)) good ->
        ~ occurs "="%char sdata ->
        HandleRead (good ++ packet :: rest)
        = (fst (HandleRead good), Fatal fatal_read))
  /\ HandleRead [payload "volt" "120.5"]
     = ([Publish "volt" "120.5"], Ok tt)
  /\ HandleRead [payload "a=b" "c"; bytes_of "novalue"; payload "x" "y"]
     = ([Publish "a" "b=c"], Fatal fatal_read).
Proof.
  intros sdata. subst sdata.
  destruct (HandleRead_packet_cases packet)
    as [[Hno Hf] | (t & v & Hs & Ht & Hok)].
  - rewrite Hf.
    split; [tauto |]. split; [cbn; tauto |].
    split; [split; [tauto | intros (? & ? & ?); discriminate] |].
    split.
    { intros topic value _ Hs. exfalso. apply Hno. rewrite Hs.
      apply occurs_app_delim. }
    split; [intros e; discriminate |].
    split; [apply HandleRead_all_good |].
    split; [intros good rest; apply HandleRead_first_bad |].
    split; reflexivity.
  - rewrite Hok.
    assert (Hocc : occurs "="%char (CopyData packet))
      by (rewrite Hs; apply occurs_app_delim).
    split; [split; [tauto | discriminate] |].
    split; [split; [tauto | discriminate] |].
    split; [split; eauto |].
    split.
    { intros topic value Htopic Hs'. rewrite Hs in Hs'.
      destruct (first_delim_unique _ _ _ _ Ht Htopic Hs') as [-> ->].
      reflexivity. }
    split.
    { intros e [= <-]. eauto. }
    split; [apply HandleRead_all_good |].
    split; [intros good rest; apply HandleRead_first_bad |].
    split; reflexivity.
Qed.

End fncs_application_facts.

(** ** The event scheduler *)

Module Scheduler_facts.
Import nstime nstime_facts Scheduler.

(** *** The order of the keys *)

Lemma earlier_key_lt (a b : Event) : earlier a b = true <-> key_lt a b.
Proof.
  unfold earlier, key_lt, op_lt, op_eq.
  rewrite orb_true_iff, andb_true_iff, Z.ltb_lt, Z.eqb_eq, Nat.ltb_lt.
  reflexivity.
Qed.

Lemma key_lt_trans (a b c : Event) : key_lt a b -> key_lt b c -> key_lt a c.
Proof. unfold key_lt. lia. Qed.

Lemma key_lt_irrefl (a : Event) : ~ key_lt a a.
Proof. unfold key_lt. lia. Qed.

Lemma key_lt_total (a b : Event) :
  ev_seq a <> ev_seq b -> ~ key_lt b a -> key_lt a b.
Proof. unfold key_lt. lia. Qed.

(** *** The earliest live event *)

Lemma earliest_None (q : list Event) :
  earliest q = None -> live q = [].
Proof.
  unfold live. induction q as [| e q IH]; simpl; [reflexivity |].
  destruct (earliest q) as [m |].
  - destruct (ev_live e && earlier e m); discriminate.
  - destruct (ev_live e); [discriminate |]. intros _. now apply IH.
Qed.

Lemma earliest_Some (q : list Event) (e : Event) :
  earliest q = Some e ->
  In e q /\ ev_live e = true
  /\ forall e', In e' q -> ev_live e' = true -> ~ key_lt e' e.
Proof.
  revert e. induction q as [| e0 q IH]; simpl; intros e; [discriminate |].
  destruct (earliest q) as [m |] eqn:Em.
  - destruct (IH m eq_refl) as (Hin & Hlive & Hmin).
    destruct (ev_live e0) eqn:L0; simpl.
    + destruct (earlier e0 m) eqn:E0; intros [= <-].
      * apply earlier_key_lt in E0.
        split; [now left |]. split; [assumption |].
        intros e' [<- | Hin'] L'; [apply key_lt_irrefl |].
        intros Hlt. apply (Hmin e' Hin' L').
        eapply key_lt_trans; eassumption.
      * split; [now right |]. split; [assumption |].
        intros e' [<- | Hin'] L'; [| now apply Hmin].
        intros Hlt. apply earlier_key_lt in Hlt. congruence.
    + intros [= <-].
      split; [now right |]. split; [assumption |].
      intros e' [<- | Hin'] L'; [congruence | now apply Hmin].
  - destruct (ev_live e0) eqn:L0; [| discriminate].
    intros [= <-].
    split; [now left |]. split; [assumption |].
    intros e' [<- | Hin'] L'; [apply key_lt_irrefl |].
    apply earliest_None in Em. unfold live in Em.
    assert (Hf : In e' (List.filter ev_live q)) by (apply filter_In; auto).
    rewrite Em in Hf. destruct Hf.
Qed.

(** *** What the requests preserve *)

Lemma Schedule_Some (delay : Time) (cb : Callback) (s : State)
    (id : EventId) (s' : State) :
  Schedule delay cb s = Some (id, s') ->
  id = next_seq s
  /\ m_data (now s) <= to_int64 (m_data (now s) + m_data delay)
  /\ s' = mkState (now s) (S (next_seq s))
            (queue s
             ++ [mkEvent (mkTime (to_int64 (m_data (now s) + m_data delay)))
                   (next_seq s) cb true]).
Proof.
  unfold Schedule, op_lt, op_add, Time_int64. cbn [m_data].
  destruct (Z.ltb_spec (to_int64 (m_data (now s) + m_data delay))
              (m_data (now s))); [discriminate |].
  intros [= <- <-]. auto.
Qed.

Lemma Schedule_well_formed (delay : Time) (cb : Callback) (s : State)
    (id : EventId) (s' : State) :
  Schedule delay cb s = Some (id, s') -> well_formed s -> well_formed s'.
Proof.
  intros H [Hb Hn]. apply Schedule_Some in H as (_ & _ & ->).
  unfold well_formed. cbn [queue next_seq]. split.
  - apply Forall_app. split.
    + eapply Forall_impl; [exact Hb |]. cbn. intros; lia.
    + constructor; [cbn; lia | constructor].
  - rewrite map_app. cbn. apply NoDup_app. split; [exact Hn |].
    split; [| apply NoDup_singleton].
    intros x Hx Hx'. apply list_elem_of_singleton in Hx'. subst x.
    apply list_elem_of_In, in_map_iff in Hx as (e & He & Hin).
    rewrite Forall_forall in Hb. apply list_elem_of_In in Hin.
    specialize (Hb e Hin). lia.
Qed.

Lemma Schedule_above (k : Event) (delay : Time) (cb : Callback) (s : State)
    (id : EventId) (s' : State) :
  Schedule delay cb s = Some (id, s') -> above k s -> above k s'.
Proof.
  intros H (Ht & Hs & Hq). apply Schedule_Some in H as (_ & Hle & ->).
  unfold above. cbn [queue next_seq now].
  split; [assumption |]. split; [lia |].
  apply Forall_app. split; [assumption |].
  constructor; [| constructor].
  intros _. unfold key_lt. cbn [ev_time ev_seq m_data]. lia.
Qed.

Lemma Schedule_no_stop (delay : Time) (tag : nat) (s : State)
    (id : EventId) (s' : State) :
  Schedule delay (UserCallback tag) s = Some (id, s') ->
  no_stop s -> no_stop s'.
Proof.
  intros H Hs. apply Schedule_Some in H as (_ & _ & ->).
  unfold no_stop. cbn [queue]. apply Forall_app. split; [assumption |].
  constructor; [discriminate | constructor].
Qed.

Lemma Cancel_seqs (id : EventId) (s : State) :
  map ev_seq (queue (Cancel id s)) = map ev_seq (queue s).
Proof.
  unfold Cancel. cbn [queue]. rewrite map_map. apply map_ext.
  intros e. now destruct (Nat.eqb _ _).
Qed.

Lemma Cancel_well_formed (id : EventId) (s : State) :
  well_formed s -> well_formed (Cancel id s).
Proof.
  intros [Hb Hn]. unfold well_formed. rewrite Cancel_seqs.
  split; [| assumption].
  unfold Cancel. cbn [queue next_seq]. apply Forall_map.
  eapply Forall_impl; [exact Hb |]. cbn.
  intros e He. now destruct (Nat.eqb _ _).
Qed.

Lemma Cancel_above (k : Event) (id : EventId) (s : State) :
  above k s -> above k (Cancel id s).
Proof.
  intros (Ht & Hs & Hq). unfold above, Cancel. cbn [queue next_seq now].
  split; [assumption |]. split; [assumption |].
  apply Forall_map. eapply Forall_impl; [exact Hq |]. cbn.
  intros e He. destruct (Nat.eqb _ _); [cbn; discriminate | exact He].
Qed.

Lemma Cancel_no_stop (id : EventId) (s : State) :
  no_stop s -> no_stop (Cancel id s).
Proof.
  unfold no_stop, Cancel. cbn [queue]. intros H.
  apply Forall_map. eapply Forall_impl; [exact H |]. cbn.
  intros e He. now destruct (Nat.eqb _ _).
Qed.

Lemma exec_well_formed (s : State) (c : Command) :
  well_formed s -> well_formed (exec s c).
Proof.
  intros Hs. destruct c as [delay tag | id | delay]; cbn.
  - destruct (Schedule delay (UserCallback tag) s) as [[i s'] |] eqn:E;
      [eapply Schedule_well_formed; eassumption | assumption].
  - now apply Cancel_well_formed.
  - unfold Stop.
    destruct (Schedule delay StopCallback s) as [[i s'] |] eqn:E;
      [eapply Schedule_well_formed; eassumption | assumption].
Qed.

Lemma exec_above (k : Event) (s : State) (c : Command) :
  above k s -> above k (exec s c).
Proof.
  intros Hs. destruct c as [delay tag | id | delay]; cbn.
  - destruct (Schedule delay (UserCallback tag) s) as [[i s'] |] eqn:E;
      [eapply Schedule_above; eassumption | assumption].
  - now apply Cancel_above.
  - unfold Stop.
    destruct (Schedule delay StopCallback s) as [[i s'] |] eqn:E;
      [eapply Schedule_above; eassumption | assumption].
Qed.

Lemma exec_no_stop (s : State) (c : Command) :
  is_stop c = false -> no_stop s -> no_stop (exec s c).
Proof.
  intros Hc Hs. destruct c as [delay tag | id | delay]; cbn;
    [| now apply Cancel_no_stop | discriminate].
  destruct (Schedule delay (UserCallback tag) s) as [[i s'] |] eqn:E;
    [eapply Schedule_no_stop; eassumption | assumption].
Qed.

Lemma exec_all_well_formed (cs : list Command) (s : State) :
  well_formed s -> well_formed (exec_all cs s).
Proof.
  unfold exec_all. revert s.
  induction cs as [| c cs IH]; intros s Hs; cbn; [assumption |].
  apply IH, exec_well_formed, Hs.
Qed.

Lemma exec_all_above (k : Event) (cs : list Command) (s : State) :
  above k s -> above k (exec_all cs s).
Proof.
  unfold exec_all. revert s.
  induction cs as [| c cs IH]; intros s Hs; cbn; [assumption |].
  apply IH, exec_above, Hs.
Qed.

Lemma exec_all_no_stop (cs : list Command) (s : State) :
  forallb (fun c => negb (is_stop c)) cs = true ->
  no_stop s -> no_stop (exec_all cs s).
Proof.
  unfold exec_all. revert s.
  induction cs as [| c cs IH]; intros s Hc Hs; simpl in *; [assumption |].
  apply andb_prop in Hc as [Hc Hcs]. apply negb_true_iff in Hc.
  apply IH; [assumption |]. now apply exec_no_stop.
Qed.

Lemma initial_well_formed : well_formed initial.
Proof. split; constructor. Qed.

(** *** Popping *)

Lemma pop_well_formed (e : Event) (s : State) :
  well_formed s ->
  well_formed (mkState (ev_time e) (next_seq s) (pop e (queue s))).
Proof.
  intros [Hb Hn]. unfold well_formed, pop. cbn [queue next_seq].
  split.
  - rewrite Forall_forall in *. intros x Hx.
    apply list_elem_of_In, filter_In in Hx as [Hx _].
    apply Hb. now apply list_elem_of_In.
  - clear Hb. induction (queue s) as [| x q IH]; cbn; [constructor |].
    apply NoDup_cons in Hn as [Hx Hn].
    destruct (negb _); cbn; [| now apply IH].
    apply NoDup_cons. split; [| now apply IH].
    intros Hin. apply Hx.
    apply list_elem_of_In, in_map_iff in Hin as (y & Hy & Hin).
    apply filter_In in Hin as [Hin _].
    apply list_elem_of_In, in_map_iff. eauto.
Qed.

Lemma pop_above (e : Event) (s : State) :
  well_formed s -> earliest (queue s) = Some e ->
  above e (mkState (ev_time e) (next_seq s) (pop e (queue s))).
Proof.
  intros [Hb _] He. apply earliest_Some in He as (Hin & _ & Hmin).
  unfold above, pop. cbn [queue next_seq now].
  split; [lia |]. split.
  - rewrite Forall_forall in Hb. apply Hb. now apply list_elem_of_In.
  - rewrite Forall_forall. intros x Hx Hl.
    apply list_elem_of_In, filter_In in Hx as [Hx Hne].
    apply negb_true_iff, Nat.eqb_neq in Hne.
    apply key_lt_total; [congruence | now apply Hmin].
Qed.


(** *** The order of dispatch *)

Lemma Run_sorted (body : nat -> list Command) (fuel : nat) (s : State) :
  well_formed s ->
  StronglySorted key_lt (trace (Run body fuel s))
  /\ Forall (fun e => ev_live e = true) (trace (Run body fuel s))
  /\ forall k, above k s -> Forall (key_lt k) (trace (Run body fuel s)).
Proof.
  revert s. induction fuel as [| fuel IH]; intros s Hs; simpl.
  { repeat split; constructor. }
  destruct (earliest (queue s)) as [e |] eqn:He;
    [| repeat split; constructor].
  destruct (ev_cb e) as [tag |]; [| repeat split; constructor].
  pose proof (pop_well_formed e s Hs) as Hs1.
  pose proof (pop_above e s Hs He) as Ha1.
  set (s1 := mkState (ev_time e) (next_seq s) (pop e (queue s))) in *.
  pose proof (exec_all_well_formed (body tag) s1 Hs1) as Hs2.
  pose proof (exec_all_above e (body tag) s1 Ha1) as Ha2.
  destruct (IH _ Hs2) as (Hsorted & Hlive & Habove).
  specialize (Habove e Ha2).
  destruct (Run body fuel (exec_all (body tag) s1)) as [[tr s'] fin].
  unfold trace in *. cbn [fst] in *.
  apply earliest_Some in He as (Hin & Hl & _).
  split; [now constructor |]. split; [now constructor |].
  intros k (_ & _ & Hk).
  rewrite Forall_forall in Hk.
  assert (Hke : key_lt k e) by (apply Hk; [now apply list_elem_of_In | exact Hl]).
  constructor; [exact Hke |].
  eapply Forall_impl; [exact Habove |]. cbn.
  intros x Hx. eapply key_lt_trans; eassumption.
Qed.

Lemma StronglySorted_lookup {A} (R : A -> A -> Prop) (l : list A)
    (i j : nat) (a b : A) :
  StronglySorted R l -> (i < j)%nat ->
  l !! i = Some a -> l !! j = Some b -> R a b.
Proof.
  intros Hs. revert i j.
  induction Hs as [| x l Hs IH Hx]; intros i j Hij Ha Hb; [discriminate |].
  destruct j as [| j]; [lia |]. cbn in Hb.
  destruct i as [| i]; cbn in Ha.
  - injection Ha as ->. rewrite Forall_forall in Hx. apply Hx.
    eapply list_elem_of_lookup_2. exact Hb.
  - apply (IH i j); [lia | assumption | assumption].
Qed.

(** *** Running to completion with inert callbacks *)

Lemma pop_Permutation (e : Event) (q : list Event) :
  NoDup (map ev_seq q) -> In e q -> Permutation q (e :: pop e q).
Proof.
  unfold pop. induction q as [| x q IH]; intros Hn Hin; [destruct Hin |].
  cbn in Hn. apply NoDup_cons in Hn as [Hx Hn]. cbn.
  destruct Hin as [-> | Hin].
  - rewrite Nat.eqb_refl. cbn. constructor.
    rewrite List.forallb_filter_id; [reflexivity |].
    apply forallb_forall. intros y Hy.
    apply negb_true_iff, Nat.eqb_neq. intros Heq. apply Hx.
    rewrite <- Heq. apply list_elem_of_In, in_map, Hy.
  - destruct (Nat.eqb_spec (ev_seq x) (ev_seq e)) as [Heq | Hne]; cbn.
    + exfalso. apply Hx. rewrite Heq. apply list_elem_of_In, in_map, Hin.
    + rewrite perm_swap. constructor. now apply IH.
Qed.

Lemma live_Permutation (q q' : list Event) :
  Permutation q q' -> Permutation (live q) (live q').
Proof.
  unfold live. induction 1; cbn.
  - constructor.
  - destruct (ev_live x); [constructor |]; assumption.
  - destruct (ev_live x), (ev_live y);
      repeat constructor; reflexivity.
  - etransitivity; eassumption.
Qed.

Lemma Run_S (body : nat -> list Command) (fuel : nat) (s : State) :
  Run body (S fuel) s
  = match earliest (queue s) with
    | None => ([], s, true)
    | Some e =>
        let s1 := mkState (ev_time e) (next_seq s) (pop e (queue s)) in
        match ev_cb e with
        | StopCallback => ([], s1, true)
        | UserCallback tag =>
            let '(tr, s', fin) := Run body fuel (exec_all (body tag) s1) in
            (e :: tr, s', fin)
        end
    end.
Proof. reflexivity. Qed.

Lemma Run_inert_complete (n : nat) (s : State) :
  well_formed s -> no_stop s -> (length (live (queue s)) <= n)%nat ->
  finished (Run inert (S n) s) = true
  /\ Permutation (trace (Run inert (S n) s)) (live (queue s))
  /\ live (queue (final (Run inert (S n) s))) = [].
Proof.
  revert s. induction n as [| n IH]; intros s Hs Hns Hlen.
  - assert (Hl : live (queue s) = [])
      by (destruct (live (queue s)); [reflexivity | cbn in Hlen; lia]).
    simpl. destruct (earliest (queue s)) as [e |] eqn:He.
    + apply earliest_Some in He as (Hin & He & _).
      assert (Hf : In e (live (queue s))) by (apply filter_In; auto).
      rewrite Hl in Hf. destruct Hf.
    + unfold finished, trace, final. cbn. rewrite Hl. auto.
  - rewrite Run_S.
    destruct (earliest (queue s)) as [e |] eqn:He.
    + pose proof (pop_well_formed e s Hs) as Hs1.
      apply earliest_Some in He as (Hin & Hl & _).
      assert (Hcb : ev_cb e <> StopCallback).
      { unfold no_stop in Hns. rewrite Forall_forall in Hns.
        apply Hns. now apply list_elem_of_In. }
      destruct (ev_cb e) as [tag |]; [| congruence].
      destruct Hs as [_ Hn].
      pose proof (live_Permutation _ _ (pop_Permutation e (queue s) Hn Hin))
        as Hp.
      unfold live at 2 in Hp. cbn [List.filter] in Hp. rewrite Hl in Hp.
      fold (live (pop e (queue s))) in Hp.
      cbn zeta.
      set (s1 := mkState (ev_time e) (next_seq s) (pop e (queue s))) in *.
      change (exec_all (inert tag) s1) with s1.
      assert (Hns1 : no_stop s1).
      { unfold no_stop, s1, pop in *. cbn [queue].
        rewrite Forall_forall in *. intros x Hx. apply Hns.
        apply list_elem_of_In, filter_In in Hx as [Hx _].
        now apply list_elem_of_In. }
      assert (Hlen1 : (length (live (queue s1)) <= n)%nat).
      { apply Permutation_length in Hp. cbn in Hp. cbn [queue s1]. lia. }
      destruct (IH s1 Hs1 Hns1 Hlen1) as (Hfin & Hperm & Hempty).
      destruct (Run inert (S n) s1) as [[tr s'] fin].
      unfold finished, trace, final in *. cbn [fst snd] in *.
      split; [assumption |]. split; [| assumption].
      rewrite Hp. now constructor.
    + apply earliest_None in He.
      unfold finished, trace, final. cbn. rewrite He. auto.
Qed.

(** *** A sequence of [Schedule] calls before [Run] *)

Lemma schedule_calls (calls : list (Time * nat)) (s : State) :
  now s = mkTime 0 ->
  Forall (fun call => 0 <= m_data (fst call) < 2 ^ 63) calls ->
  exec_all (map schedule_cmd calls) s
  = mkState (now s) (next_seq s + length calls)
      (queue s ++ scheduled (next_seq s) calls).
Proof.
  unfold exec_all, scheduled. revert s.
  induction calls as [| [delay tag] calls IH]; intros s Hnow Hc.
  - cbn. rewrite Nat.add_0_r, app_nil_r. now destruct s.
  - apply Forall_cons in Hc as [Hd Hc]. cbn [fst] in Hd.
    cbn [map fold_left exec schedule_cmd fst snd].
    unfold Schedule, op_lt, op_add, Time_int64. rewrite Hnow.
    cbn [m_data]. rewrite Z.add_0_l.
    rewrite to_int64_id by (unfold Int.int64_range; lia).
    destruct (Z.ltb_spec (m_data delay) 0) as [Hlt | _]; [lia |].
    rewrite IH; [| reflexivity | assumption]. cbn [now next_seq queue].
    rewrite Time_eta, <- app_assoc. cbn [app length].
    cbn [imap fst snd].
    replace (S (next_seq s) + length calls)%nat
      with (next_seq s + S (length calls))%nat by lia.
    rewrite Nat.add_0_r. do 3 f_equal.
    apply imap_ext. intros i x _. cbn. f_equal. lia.
Qed.


(** C4. For every sequence of requests made before [Run] and whatever the
    callbacks request when they are dispatched, the events that [Run]
    dispatches are live, come in non-decreasing virtual time, and those
    that share a virtual time come in the order of their insertion.  When
    the callbacks request nothing and no stop is scheduled, [Run] ends and
    has dispatched exactly the live events; in particular after a sequence
    of [Schedule] calls it has dispatched exactly the scheduled events.
    Events scheduled at 5 s, 5 s, 3 s and 10 s (callbacks 1, 2, 3, 4) are
    dispatched in the order 3 s, first 5 s, second 5 s, 10 s. *)
Theorem Run_dispatches_by_time_then_insertion
    (body : nat -> list Command) (cmds : list Command) (fuel : nat)
    (calls : list (Time * nat))
    (Hcalls : Forall (fun call => 0 <= m_data (fst call) < 2 ^ 63) calls) :
  (let tr := trace (Run body fuel (exec_all cmds initial)) in
   StronglySorted key_lt tr
   /\ Forall (fun e => ev_live e = true) tr
   /\ forall (i j : nat) (e1 e2 : Event),
        (i < j)%nat -> tr !! i = Some e1 -> tr !! j = Some e2 ->
        m_data (ev_time e1) <= m_data (ev_time e2)
        /\ (m_data (ev_time e1) = m_data (ev_time e2) ->
            (ev_seq e1 < ev_seq e2)%nat))
  /\ (forallb (fun c => negb (is_stop c)) cmds = true ->
      let s := exec_all cmds initial in
      let r := Run inert (S (length (queue s))) s in
      finished r = true
      /\ Permutation (trace r) (live (queue s))
      /\ StronglySorted key_lt (trace r))
  /\ (let s := exec_all (map schedule_cmd calls) initial in
      let r := Run inert (S (length calls)) s in
      queue s = scheduled 0 calls
      /\ finished r = true
      /\ Permutation (trace r) (scheduled 0 calls)
      /\ StronglySorted key_lt (trace r))
  /\ map (fun e => (m_data (ev_time e), ev_cb e))
       (trace (Run inert 5
                 (exec_all
                    (map schedule_cmd
                       [(sec 5, 1); (sec 5, 2); (sec 3, 3); (sec 10, 4)]%nat)
                    initial)))
     = [(3000000000, UserCallback 3); (5000000000, UserCallback 1);
        (5000000000, UserCallback 2); (10000000000, UserCallback 4)].
Proof.
  split; [| split; [| split]].
  - cbn zeta.
    destruct (Run_sorted body fuel (exec_all cmds initial))
      as (Hsorted & Hlive & _).
    { apply exec_all_well_formed, initial_well_formed. }
    split; [assumption |]. split; [assumption |].
    intros i j e1 e2 Hij H1 H2.
    pose proof (StronglySorted_lookup _ _ _ _ _ _ Hsorted Hij H1 H2) as Hlt.
    unfold key_lt in Hlt. lia.
  - intros Hns. cbn zeta.
    assert (Hwf : well_formed (exec_all cmds initial))
      by apply exec_all_well_formed, initial_well_formed.
    assert (Hno : no_stop (exec_all cmds initial))
      by (apply exec_all_no_stop; [assumption | constructor]).
    destruct (Run_inert_complete (length (queue (exec_all cmds initial)))
                (exec_all cmds initial) Hwf Hno) as (Hfin & Hperm & _).
    { unfold live. apply List.filter_length_le. }
    split; [assumption |]. split; [assumption |].
    now apply Run_sorted.
  - cbn zeta.
    pose proof (exec_all_well_formed (map schedule_cmd calls) initial
                  initial_well_formed) as Hwf.
    rewrite (schedule_calls calls initial eq_refl Hcalls) in *.
    cbn [queue initial app now next_seq Nat.add] in *.
    set (s := mkState (mkTime 0) (length calls) (scheduled 0 calls)) in *.
    assert (Hall : live (scheduled 0 calls) = scheduled 0 calls).
    { unfold live. apply List.forallb_filter_id, forallb_forall.
      intros e He. unfold scheduled in He.
      apply list_elem_of_In, list_elem_of_lookup in He as [i He].
      rewrite list_lookup_imap in He.
      destruct (calls !! i); [| discriminate].
      cbn in He. now injection He as <-. }
    assert (Hno : no_stop s).
    { unfold no_stop, s. cbn [queue]. rewrite Forall_forall.
      intros e He. unfold scheduled in He.
      apply list_elem_of_lookup in He as [i He].
      rewrite list_lookup_imap in He.
      destruct (calls !! i); [| discriminate].
      cbn in He. injection He as <-. discriminate. }
    destruct (Run_inert_complete (length calls) s Hwf Hno)
      as (Hfin & Hperm & _).
    { cbn [queue s]. rewrite Hall. unfold scheduled.
      now rewrite length_imap. }
    cbn [queue s] in Hperm. rewrite Hall in Hperm.
    split; [reflexivity |]. split; [assumption |]. split; [assumption |].
    now apply Run_sorted.
  - vm_compute. reflexivity.
Qed.

(** The four events of the example: the run ends and dispatches them
    all. *)
Lemma Run_dispatches_by_time_then_insertion_witness :
  Forall (fun call : Time * nat => 0 <= m_data (fst call) < 2 ^ 63)
    [(sec 5, 1); (sec 5, 2); (sec 3, 3); (sec 10, 4)]%nat
  /\ finished
       (Run inert 5
          (exec_all
             (map schedule_cmd
                [(sec 5, 1); (sec 5, 2); (sec 3, 3); (sec 10, 4)]%nat)
             initial))
     = true.
Proof.
  assert (H : Forall (fun call : Time * nat =>
                        0 <= m_data (fst call) < 2 ^ 63)
                [(sec 5, 1); (sec 5, 2); (sec 3, 3); (sec 10, 4)]%nat).
  { repeat constructor; vm_compute; congruence. }
  split; [exact H |].
  destruct (Run_dispatches_by_time_then_insertion inert [] 0 _ H)
    as (_ & _ & (_ & Hfin & _) & _).
  exact Hfin.
Defined.

End Scheduler_facts.

(** ** More on the Time class *)

Module nstime_conversions.
Import nstime nstime_facts.

(** Wrapping changes a number by a multiple of [2^64]. *)
Lemma to_uint64_ex (z : Z) : exists k : Z, to_uint64 z = z + k * 2 ^ 64.
Proof.
  exists (- (z / 2 ^ 64)). unfold to_uint64.
  rewrite (Z.mod_eq z (2 ^ 64)) by lia. lia.
Qed.

Lemma to_int64_ex (z : Z) : exists k : Z, to_int64 z = z + k * 2 ^ 64.
Proof.
  exists (- ((z + 2 ^ 63) / 2 ^ 64)). unfold to_int64.
  rewrite (Z.mod_eq (z + 2 ^ 63) (2 ^ 64)) by lia. lia.
Qed.

Lemma to_int64_shift (a k : Z) : to_int64 (a + k * 2 ^ 64) = to_int64 a.
Proof. unfold to_int64. f_equal.
  replace (a + k * 2 ^ 64 + 2 ^ 63) with (a + 2 ^ 63 + k * 2 ^ 64) by lia.
  apply Z.mod_add. lia.
Qed.

(** X1. An amount converted to ticks and read back in the same unit: for a
    unit whose entry multiplies on the way in and divides on the way out
    (a unit coarser than the resolution), [ToInteger] after [FromInteger]
    gives the amount back as long as the tick count fits the [int64_t]; for
    a unit that divides on the way in (a finer unit) it gives the amount
    rounded down to a multiple of the factor; at factor 1 it gives the
    amount back. *)
Theorem ToInteger_FromInteger_roundtrip (r : Resolution) (U : Unit) (v : Z)
    (Hf : 0 < factor (PeekInformation r U))
    (Hv : 0 <= v <= INT64_MAX) :
  let f := factor (PeekInformation r U) in
  (fromMul (PeekInformation r U) = true ->
   toMul (PeekInformation r U) = false ->
   v * f <= INT64_MAX ->
   ToInteger r (FromInteger r v U) U = v)
  /\ (fromMul (PeekInformation r U) = false ->
      toMul (PeekInformation r U) = true ->
      ToInteger r (FromInteger r v U) U = v - v mod f
      /\ v - f < ToInteger r (FromInteger r v U) U <= v)
  /\ (fromMul (PeekInformation r U) = true ->
      toMul (PeekInformation r U) = true ->
      f = 1 ->
      ToInteger r (FromInteger r v U) U = v).
Proof.
  intros f. subst f. unfold INT64_MAX in *.
  unfold ToInteger, FromInteger, Time_uint64. cbn [m_data].
  set (f := factor (PeekInformation r U)) in *.
  split; [| split].
  - intros -> -> Hfit.
    assert (v <= v * f) by nia.
    rewrite (to_uint64_id v) by lia.
    rewrite !(to_uint64_id (v * f)) by lia.
    rewrite (to_int64_id (v * f)) by (unfold int64_range; lia).
    rewrite (to_uint64_id (v * f)) by lia.
    rewrite Z.div_mul by lia.
    apply to_int64_id. unfold int64_range. lia.
  - intros -> ->.
    pose proof (Z.mod_pos_bound v f Hf) as Hm.
    pose proof (Z.div_mod v f ltac:(lia)) as Hd.
    assert (0 <= v / f) by (apply Z.div_pos; lia).
    assert (v / f <= v) by (apply Z.div_le_upper_bound; nia).
    assert (Hq : v / f * f = v - v mod f) by lia.
    rewrite (to_uint64_id v) by lia.
    rewrite (to_uint64_id (v / f)) by lia.
    rewrite (to_int64_id (v / f)) by (unfold int64_range; lia).
    rewrite (to_uint64_id (v / f)) by lia.
    rewrite Hq, to_int64_id by (unfold int64_range; lia). lia.
  - intros -> -> ->. rewrite !Z.mul_1_r.
    rewrite !(to_uint64_id v) by lia.
    rewrite (to_int64_id v) by (unfold int64_range; lia).
    rewrite (to_uint64_id v) by lia.
    apply to_int64_id. unfold int64_range. lia.
Qed.

Lemma ToInteger_FromInteger_roundtrip_witness :
  0 < factor (PeekInformation SetDefaultNsResolution Time_MS)
  /\ 0 <= 5 <= INT64_MAX
  /\ GetMilliSeconds SetDefaultNsResolution
       (MilliSeconds SetDefaultNsResolution 5) = 5.
Proof.
  assert (Hf : 0 < factor (PeekInformation SetDefaultNsResolution Time_MS))
    by (vm_compute; reflexivity).
  assert (Hv : 0 <= 5 <= INT64_MAX) by (unfold INT64_MAX; lia).
  split; [exact Hf |]. split; [exact Hv |].
  destruct (ToInteger_FromInteger_roundtrip SetDefaultNsResolution Time_MS 5
              Hf Hv) as (H & _).
  apply H; [reflexivity | reflexivity |]. vm_compute. discriminate.
Defined.

(** X2. Conversions of sums: for a unit that multiplies on the way in,
    [FromInteger] of a sum is the sum (the operator [+]) of the two
    conversions, for all amounts; for a unit that divides on the way in the
    conversion of a sum exceeds the sum of the conversions by at most one
    tick. *)
Theorem FromInteger_of_a_sum (r : Resolution) (U : Unit) (a b : Z)
    (Hf : 0 < factor (PeekInformation r U)) :
  (fromMul (PeekInformation r U) = true ->
   FromInteger r (a + b) U = op_add (FromInteger r a U) (FromInteger r b U))
  /\ (fromMul (PeekInformation r U) = false ->
      0 <= a -> 0 <= b -> a + b <= INT64_MAX ->
      0 <= m_data (FromInteger r (a + b) U)
           - (m_data (FromInteger r a U) + m_data (FromInteger r b U))
        <= 1).
Proof.
  unfold FromInteger, op_add, Time_uint64, Time_int64, INT64_MAX.
  cbn [m_data].
  set (f := factor (PeekInformation r U)) in *.
  split.
  - intros ->. f_equal.
    rewrite !to_int64_of_uint64, to_int64_add_l, to_int64_add_r.
    destruct (to_uint64_ex (a + b)) as [k ->].
    destruct (to_uint64_ex a) as [ka ->].
    destruct (to_uint64_ex b) as [kb ->].
    replace ((a + b + k * 2 ^ 64) * f)
      with ((a * f + b * f) + (k * f) * 2 ^ 64) by ring.
    replace ((a + ka * 2 ^ 64) * f + (b + kb * 2 ^ 64) * f)
      with ((a * f + b * f) + ((ka + kb) * f) * 2 ^ 64) by ring.
    now rewrite !to_int64_shift.
  - intros -> Ha Hb Hab.
    assert (Hdiv : forall x, 0 <= x <= 2 ^ 63 - 1 ->
              to_int64 (to_uint64 (to_uint64 x / f)) = x / f).
    { intros x Hx.
      assert (0 <= x / f) by (apply Z.div_pos; lia).
      assert (x / f <= x) by (apply Z.div_le_upper_bound; nia).
      rewrite (to_uint64_id x) by lia.
      rewrite (to_uint64_id (x / f)) by lia.
      apply to_int64_id. unfold int64_range. lia. }
    rewrite !Hdiv by lia.
    pose proof (Z.div_mod a f ltac:(lia)).
    pose proof (Z.div_mod b f ltac:(lia)).
    pose proof (Z.div_mod (a + b) f ltac:(lia)).
    pose proof (Z.mod_pos_bound a f Hf).
    pose proof (Z.mod_pos_bound b f Hf).
    pose proof (Z.mod_pos_bound (a + b) f Hf).
    nia.
Qed.

Lemma FromInteger_of_a_sum_witness :
  0 < factor (PeekInformation SetDefaultNsResolution Time_PS)
  /\ m_data (PicoSeconds SetDefaultNsResolution (600 + 600))
     - (m_data (PicoSeconds SetDefaultNsResolution 600)
        + m_data (PicoSeconds SetDefaultNsResolution 600)) <= 1.
Proof.
  assert (Hf : 0 < factor (PeekInformation SetDefaultNsResolution Time_PS))
    by (vm_compute; reflexivity).
  split; [exact Hf |].
  destruct (FromInteger_of_a_sum SetDefaultNsResolution Time_PS 600 600 Hf)
    as (_ & H).
  apply H; [reflexivity | lia | lia | unfold INT64_MAX; lia].
Defined.


(** X3. Reading a negative Time in a unit whose entry divides by a factor
    of at least 2: [v /= factor] is an unsigned division, so [ToInteger]
    returns [(2^64 + ticks) / factor], which is never negative (and not 0
    for factors up to [2^63]). *)
Theorem ToInteger_of_negative_by_division (r : Resolution) (U : Unit)
    (t : Time)
    (Hdiv : toMul (PeekInformation r U) = false)
    (Hf : 2 <= factor (PeekInformation r U))
    (Ht : INT64_MIN <= m_data t < 0) :
  ToInteger r t U = (2 ^ 64 + m_data t) / factor (PeekInformation r U)
  /\ 0 <= ToInteger r t U
  /\ (factor (PeekInformation r U) <= 2 ^ 63 -> 0 < ToInteger r t U).
Proof.
  unfold ToInteger, INT64_MIN in *. rewrite Hdiv.
  set (f := factor (PeekInformation r U)) in *.
  set (n := m_data t) in *.
  assert (Hu : to_uint64 n = 2 ^ 64 + n).
  { unfold to_uint64.
    replace n with (2 ^ 64 + n + (-1) * 2 ^ 64) at 1 by lia.
    rewrite Z.mod_add by lia. apply Z.mod_small. lia. }
  rewrite Hu.
  assert (H0 : 0 <= (2 ^ 64 + n) / f) by (apply Z.div_pos; lia).
  assert (H1 : (2 ^ 64 + n) / f < 2 ^ 63)
    by (apply Z.div_lt_upper_bound; lia).
  rewrite to_int64_id by (unfold int64_range; lia).
  split; [reflexivity |]. split; [assumption |].
  intros Hle.
  assert (1 <= (2 ^ 64 + n) / f); [| lia].
  apply Z.div_le_lower_bound; lia.
Qed.

Lemma ToInteger_of_negative_by_division_witness :
  toMul (PeekInformation SetDefaultNsResolution Time_US) = false
  /\ 2 <= factor (PeekInformation SetDefaultNsResolution Time_US)
  /\ INT64_MIN <= m_data (mkTime (-1500)) < 0
  /\ GetMicroSeconds SetDefaultNsResolution (mkTime (-1500))
     = 18446744073709550.
Proof.
  assert (H1 : toMul (PeekInformation SetDefaultNsResolution Time_US) = false)
    by reflexivity.
  assert (H2 : 2 <= factor (PeekInformation SetDefaultNsResolution Time_US))
    by (vm_compute; discriminate).
  assert (H3 : INT64_MIN <= m_data (mkTime (-1500)) < 0)
    by (unfold INT64_MIN; cbn; lia).
  split; [exact H1 |]. split; [exact H2 |]. split; [exact H3 |].
  destruct (ToInteger_of_negative_by_division SetDefaultNsResolution Time_US
              (mkTime (-1500)) H1 H2 H3) as (H & _).
  unfold GetMicroSeconds. rewrite H. reflexivity.
Defined.

(** X4. Reading non-negative Times in a unit keeps their order: if
    [0 <= a <= b] and, for a unit that multiplies, the amount of [b] fits
    the [int64_t], then [ToInteger a <= ToInteger b] and both are not
    negative; for a unit that multiplies the order is kept strictly. *)
Theorem ToInteger_monotone (r : Resolution) (U : Unit) (a b : Time)
    (Hf : 0 < factor (PeekInformation r U))
    (Hab : 0 <= m_data a <= m_data b)
    (Hb : m_data b <= INT64_MAX)
    (Hfit : toMul (PeekInformation r U) = true ->
            m_data b * factor (PeekInformation r U) <= INT64_MAX) :
  ToInteger r a U <= ToInteger r b U
  /\ 0 <= ToInteger r a U
  /\ (toMul (PeekInformation r U) = true ->
      m_data a < m_data b -> ToInteger r a U < ToInteger r b U).
Proof.
  unfold ToInteger, INT64_MAX in *.
  set (f := factor (PeekInformation r U)) in *.
  set (x := m_data a) in *. set (y := m_data b) in *.
  rewrite (to_uint64_id x), (to_uint64_id y) by lia.
  destruct (toMul (PeekInformation r U)).
  - specialize (Hfit eq_refl).
    assert (x * f <= y * f) by nia. assert (0 <= x * f) by nia.
    rewrite !to_int64_id by (unfold int64_range; lia).
    split; [assumption |]. split; [assumption |]. intros _ Hlt. nia.
  - assert (0 <= x / f) by (apply Z.div_pos; lia).
    assert (x / f <= y / f) by (apply Z.div_le_mono; lia).
    assert (y / f <= y) by (apply Z.div_le_upper_bound; nia).
    rewrite !to_int64_id by (unfold int64_range; lia).
    split; [assumption |]. split; [assumption |]. discriminate.
Qed.

Lemma ToInteger_monotone_witness :
  0 < factor (PeekInformation SetDefaultNsResolution Time_US)
  /\ GetMicroSeconds SetDefaultNsResolution (mkTime 1500)
     <= GetMicroSeconds SetDefaultNsResolution (mkTime 2500).
Proof.
  assert (Hf : 0 < factor (PeekInformation SetDefaultNsResolution Time_US))
    by (vm_compute; reflexivity).
  split; [exact Hf |].
  apply (ToInteger_monotone SetDefaultNsResolution Time_US
           (mkTime 1500) (mkTime 2500) Hf).
  - cbn. lia.
  - unfold INT64_MAX. cbn. lia.
  - discriminate.
Defined.

(** X5. A Time built from an unsigned tick count ([TimeStep], the
    constructors on unsigned integers): counts below [2^63] are kept, counts
    from [2^63] on become the negative ticks [ts - 2^64]; [FromInteger] at a
    unit of factor 1 builds the same Time. *)
Theorem TimeStep_of_unsigned (ts : Z) (Hts : uint64_range ts) :
  GetTimeStep (TimeStep ts) = (if ts <? 2 ^ 63 then ts else ts - 2 ^ 64)
  /\ IsStrictlyNegative (TimeStep ts) = (2 ^ 63 <=? ts)
  /\ (forall r : Resolution,
        fromMul (PeekInformation r (GetResolution r)) = true ->
        factor (PeekInformation r (GetResolution r)) = 1 ->
        FromInteger r ts (GetResolution r) = TimeStep ts).
Proof.
  unfold uint64_range in Hts.
  unfold GetTimeStep, TimeStep, IsStrictlyNegative, Time_uint64.
  cbn [m_data]. rewrite (to_uint64_id ts) by lia.
  assert (Hcase : to_int64 ts = if ts <? 2 ^ 63 then ts else ts - 2 ^ 64).
  { destruct (Z.ltb_spec ts (2 ^ 63)).
    - apply to_int64_id. unfold int64_range. lia.
    - replace ts with (ts - 2 ^ 64 + 1 * 2 ^ 64) at 1 by lia.
      rewrite to_int64_shift. apply to_int64_id. unfold int64_range. lia. }
  split; [exact Hcase |]. split.
  - rewrite Hcase. destruct (Z.ltb_spec ts (2 ^ 63)); lia.
  - intros r Hm H1. unfold FromInteger, Time_uint64. rewrite Hm, H1.
    rewrite Z.mul_1_r. rewrite !(to_uint64_id ts) by lia. reflexivity.
Qed.

Lemma TimeStep_of_unsigned_witness :
  uint64_range (2 ^ 64 - 1) /\ GetTimeStep (TimeStep (2 ^ 64 - 1)) = -1.
Proof.
  assert (H : uint64_range (2 ^ 64 - 1)) by (unfold uint64_range; lia).
  split; [exact H |].
  destruct (TimeStep_of_unsigned (2 ^ 64 - 1) H) as (-> & _). reflexivity.
Defined.

End nstime_conversions.

(** ** More on the operators *)

Module nstime_operators.
Import nstime nstime_facts.

Lemma to_int64_zero_iff (z : Z) :
  - 2 ^ 64 < z < 2 ^ 64 -> (to_int64 z = 0 <-> z = 0).
Proof.
  intros Hz. unfold to_int64. split; [| intros ->; reflexivity].
  intros H.
  assert (Hm : (z + 2 ^ 63) mod 2 ^ 64 = 2 ^ 63) by lia.
  destruct (Z.lt_ge_cases (z + 2 ^ 63) 0).
  - replace (z + 2 ^ 63) with (z + 2 ^ 63 + 2 ^ 64 + (-1) * 2 ^ 64) in Hm
      by lia.
    rewrite Z.mod_add, Z.mod_small in Hm by lia. lia.
  - destruct (Z.lt_ge_cases (z + 2 ^ 63) (2 ^ 64)).
    + rewrite Z.mod_small in Hm by lia. lia.
    + replace (z + 2 ^ 63) with (z + 2 ^ 63 - 2 ^ 64 + 1 * 2 ^ 64) in Hm
        by lia.
      rewrite Z.mod_add, Z.mod_small in Hm by lia. lia.
Qed.

(** X6. Tests on a difference against comparisons: [IsZero (a - b)] always
    agrees with [a == b]; the sign tests on [a - b] agree with [<], [>],
    [<=] and [>=] when the difference is representable; when it is not, the
    sign of [a - b] is the opposite of the comparison. *)
Theorem difference_tests (a b : Time)
    (Ha : int64_range (m_data a)) (Hb : int64_range (m_data b)) :
  IsZero (op_sub a b) = op_eq a b
  /\ (IsZero (op_sub a b) = true <-> Compare a b = 0)
  /\ (int64_range (m_data a - m_data b) ->
      IsStrictlyNegative (op_sub a b) = op_lt a b
      /\ IsStrictlyPositive (op_sub a b) = op_gt a b
      /\ IsNegative (op_sub a b) = op_le a b
      /\ IsPositive (op_sub a b) = op_ge a b)
  /\ (m_data a - m_data b > INT64_MAX ->
      op_gt a b = true /\ IsStrictlyNegative (op_sub a b) = true)
  /\ (m_data a - m_data b < INT64_MIN ->
      op_lt a b = true /\ IsPositive (op_sub a b) = true).
Proof.
  unfold int64_range, INT64_MAX, INT64_MIN in *.
  unfold IsZero, IsStrictlyNegative, IsStrictlyPositive, IsNegative,
    IsPositive, op_sub, op_eq, op_lt, op_gt, op_le, op_ge, Time_int64.
  cbn [m_data].
  set (x := m_data a) in *. set (y := m_data b) in *.
  pose proof (to_int64_zero_iff (x - y) ltac:(lia)) as Hz.
  assert (Heq : (to_int64 (x - y) =? 0) = (x =? y)).
  { destruct (Z.eqb_spec x y) as [-> | Hne].
    - rewrite Z.sub_diag. reflexivity.
    - apply Z.eqb_neq. intros H0. apply Hz in H0. lia. }
  split; [exact Heq |]. split.
  { rewrite Heq, Compare_spec. fold x y. rewrite Z.eqb_eq.
    destruct (Z.compare_spec x y); split; intros; try lia;
      try discriminate. }
  split.
  { intros Hr. rewrite to_int64_id by (unfold int64_range; lia).
    rewrite !Z.gtb_ltb, !Z.geb_leb.
    repeat split.
    - destruct (Z.ltb_spec (x - y) 0), (Z.ltb_spec x y); lia.
    - destruct (Z.ltb_spec 0 (x - y)), (Z.ltb_spec y x); lia.
    - destruct (Z.leb_spec (x - y) 0), (Z.leb_spec x y); lia.
    - destruct (Z.leb_spec 0 (x - y)), (Z.leb_spec y x); lia. }
  split.
  - intros Hbig.
    replace (x - y) with (x - y - 2 ^ 64 + 1 * 2 ^ 64) by lia.
    rewrite nstime_conversions.to_int64_shift.
    rewrite to_int64_id by (unfold int64_range; lia).
    rewrite Z.gtb_ltb. split; apply Z.ltb_lt; lia.
  - intros Hsmall.
    replace (x - y) with (x - y + 2 ^ 64 + (-1) * 2 ^ 64) by lia.
    rewrite nstime_conversions.to_int64_shift.
    rewrite to_int64_id by (unfold int64_range; lia).
    rewrite Z.geb_leb. split; [apply Z.ltb_lt | apply Z.leb_le]; lia.
Qed.

Lemma difference_tests_witness :
  int64_range INT64_MAX /\ int64_range (-1)
  /\ op_gt (mkTime INT64_MAX) (mkTime (-1)) = true
  /\ IsStrictlyNegative (op_sub (mkTime INT64_MAX) (mkTime (-1))) = true.
Proof.
  assert (Ha : int64_range (m_data (mkTime INT64_MAX)))
    by (unfold int64_range, INT64_MAX; cbn; lia).
  assert (Hb : int64_range (m_data (mkTime (-1))))
    by (unfold int64_range; cbn; lia).
  split; [exact Ha |]. split; [exact Hb |].
  destruct (difference_tests (mkTime INT64_MAX) (mkTime (-1)) Ha Hb)
    as (_ & _ & _ & H & _).
  apply H. unfold INT64_MAX. cbn. lia.
Defined.


(** X7. [Min] and [Max] return the two operands in some order, so their sum
    is the sum of the operands; they are commutative and associative,
    absorb each other, and [Max] is the least upper and [Min] the greatest
    lower bound for [<=]. *)
Theorem Min_Max_laws (a b c : Time) :
  ((Min a b = a /\ Max a b = b) \/ (Min a b = b /\ Max a b = a))
  /\ op_le (Min a b) (Max a b) = true
  /\ op_add (Min a b) (Max a b) = op_add a b
  /\ Max a b = Max b a
  /\ Min a b = Min b a
  /\ Max (Max a b) c = Max a (Max b c)
  /\ Min (Min a b) c = Min a (Min b c)
  /\ Min a (Max a b) = a
  /\ Max a (Min a b) = a
  /\ (op_le (Max a b) c = true <-> op_le a c = true /\ op_le b c = true)
  /\ (op_le c (Min a b) = true <-> op_le c a = true /\ op_le c b = true).
Proof.
  destruct a as [x], b as [y], c as [z].
  assert (HM : forall u v, Max (mkTime u) (mkTime v) = mkTime (Z.max u v)).
  { intros u v. unfold Max, Time_copy. cbn [m_data].
    destruct (Z.ltb_spec u v); cbn [m_data]; f_equal; lia. }
  assert (Hm : forall u v, Min (mkTime u) (mkTime v) = mkTime (Z.min u v)).
  { intros u v. unfold Min, Time_copy. cbn [m_data]. rewrite Z.gtb_ltb.
    destruct (Z.ltb_spec v u); cbn [m_data]; f_equal; lia. }
  rewrite ?HM, ?Hm, ?HM, ?Hm, ?HM, ?Hm.
  unfold op_le, op_add, Time_int64. cbn [m_data]. rewrite !Z.leb_le.
  split.
  { destruct (Z.le_ge_cases x y); [left | right]; split; f_equal; lia. }
  repeat split; try lia; try (f_equal; lia); try (f_equal; f_equal; lia).
Qed.

(** X8. [Abs] of a difference does not depend on the order of the operands;
    away from the least tick count [Abs] is not negative, idempotent, zero
    only at zero, unchanged by negation and at least its operand; at the
    least tick count [Abs] returns its operand, which is strictly
    negative. *)
Theorem Abs_laws (a b : Time)
    (Ha : int64_range (m_data a)) (Hb : int64_range (m_data b)) :
  Abs (op_sub a b) = Abs (op_sub b a)
  /\ (m_data a <> INT64_MIN ->
      IsPositive (Abs a) = true
      /\ Abs (Abs a) = Abs a
      /\ IsZero (Abs a) = IsZero a
      /\ Abs (op_sub (Time_int64 0) a) = Abs a
      /\ op_le a (Abs a) = true)
  /\ (m_data a = INT64_MIN ->
      Abs a = a /\ IsStrictlyNegative (Abs a) = true).
Proof.
  unfold int64_range, INT64_MIN in *.
  destruct a as [x], b as [y]. cbn [m_data] in *.
  unfold Abs, op_sub, Time_int64, IsPositive, IsZero, IsStrictlyNegative,
    op_le. cbn [m_data].
  split; [| split].
  - f_equal.
    pose proof (to_int64_range (x - y)) as Hd. unfold int64_range in Hd.
    assert (Hd' : to_int64 (y - x) = to_int64 (- to_int64 (x - y))).
    { replace (- to_int64 (x - y)) with (0 - to_int64 (x - y)) by lia.
      rewrite to_int64_sub_r. f_equal. lia. }
    rewrite Hd'. set (d := to_int64 (x - y)) in *.
    destruct (Z.eq_dec d (- 2 ^ 63)) as [-> | Hne].
    + reflexivity.
    + rewrite (to_int64_id (- d)) by (unfold int64_range; lia).
      destruct (Z.ltb_spec d 0), (Z.ltb_spec (- d) 0); try lia;
        f_equal; lia.
  - intros Hne.
    rewrite (to_int64_id 0) by (unfold int64_range; lia).
    assert (Habs : to_int64 (if x <? 0 then - x else x) = Z.abs x).
    { destruct (Z.ltb_spec x 0); rewrite to_int64_id;
        unfold int64_range; lia. }
    rewrite Habs.
    assert (Hneg : to_int64 (0 - x) = - x)
      by (apply to_int64_id; unfold int64_range; lia).
    rewrite Hneg, Z.geb_leb.
    repeat split.
    + apply Z.leb_le. lia.
    + f_equal. destruct (Z.ltb_spec (Z.abs x) 0); [lia |].
      apply to_int64_id. unfold int64_range. lia.
    + destruct (Z.eqb_spec (Z.abs x) 0), (Z.eqb_spec x 0); lia.
    + f_equal. destruct (Z.ltb_spec (- x) 0);
        rewrite to_int64_id; unfold int64_range; lia.
    + apply Z.leb_le. lia.
  - intros ->. split; reflexivity.
Qed.

Lemma Abs_laws_witness :
  int64_range 3 /\ int64_range 10
  /\ Abs (op_sub (mkTime 3) (mkTime 10)) = mkTime 7.
Proof.
  assert (Ha : int64_range (m_data (mkTime 3)))
    by (unfold int64_range; cbn; lia).
  assert (Hb : int64_range (m_data (mkTime 10)))
    by (unfold int64_range; cbn; lia).
  split; [exact Ha |]. split; [exact Hb |].
  destruct (Abs_laws (mkTime 3) (mkTime 10) Ha Hb) as (-> & _).
  reflexivity.
Defined.

End nstime_operators.

(** ** More on the federate endpoint *)

Module fncs_wire_facts.
Import fncs_application fncs_application_facts fncs_wire.

Lemma string_app_assoc (s1 s2 s3 : string) :
  (s1 +:+ s2) +:+ s3 = s1 +:+ (s2 +:+ s3).
Proof.
  induction s1 as [| c s1 IH]; [reflexivity |].
  change (String c ((s1 +:+ s2) +:+ s3) = String c (s1 +:+ (s2 +:+ s3))).
  now rewrite IH.
Qed.

Lemma HandleRead_packet_cut (t v : string) :
  ~ occurs "="%char t ->
  HandleRead_packet (bytes_of (t +:+ String "="%char v)) = Ok (Publish t v).
Proof.
  intros Ht. unfold HandleRead_packet.
  rewrite CopyData_bytes_of, find_0, (find_from_app _ _ _ _ Ht).
  cbn [Nat.add]. now rewrite substr_topic, substr_value.
Qed.

(** X9. What [HandleRead] makes of a packet built by [Send]: it is never
    fatal; it publishes the topic and the value of the call exactly when
    the topic holds no ['=']; when the topic holds one, the published topic
    is the part before the first ['='] and the rest moves into the
    value. *)
Theorem HandleRead_of_a_sent_packet (junk : nat -> byte)
    (topic value : string) :
  is_fatal (HandleRead_packet (Send_packet junk topic value)) = false
  /\ (~ occurs "="%char topic ->
      HandleRead_packet (Send_packet junk topic value)
      = Ok (Publish topic value))
  /\ (forall t1 t2 : string,
        ~ occurs "="%char t1 ->
        topic = t1 +:+ String "="%char t2 ->
        HandleRead_packet (Send_packet junk topic value)
        = Ok (Publish t1 (t2 +:+ String "="%char value)))
  /\ (occurs "="%char topic ->
      HandleRead_packet (Send_packet junk topic value)
      <> Ok (Publish topic value)).
Proof.
  rewrite Send_packet_payload. unfold payload.
  change ("=" +:+ value) with (String "="%char value).
  assert (Hcut : forall t1 t2 : string,
             ~ occurs "="%char t1 ->
             topic = t1 +:+ String "="%char t2 ->
             HandleRead_packet (bytes_of (topic +:+ String "="%char value))
             = Ok (Publish t1 (t2 +:+ String "="%char value))).
  { intros t1 t2 Ht1 ->. rewrite string_app_assoc. simpl.
    now apply HandleRead_packet_cut. }
  split; [| split; [| split]].
  - destruct (HandleRead_packet_cases
                (bytes_of (topic +:+ String "="%char value)))
      as [[Hno _] | (t & v & _ & _ & ->)]; [| reflexivity].
    exfalso. apply Hno. rewrite CopyData_bytes_of. apply occurs_app_delim.
  - now apply HandleRead_packet_cut.
  - exact Hcut.
  - intros Hocc Heq.
    destruct (HandleRead_packet_cases
                (bytes_of (topic +:+ String "="%char value)))
      as [[_ Hf] | (t & v & _ & Ht & Hok)]; [congruence |].
    rewrite Hok in Heq. injection Heq as -> _. contradiction.
Qed.

Lemma transmitted_Send_all (junk : nat -> byte)
    (calls : list (FncsApplication * string * string))
    (app : FncsApplication) :
  can_send app ->
  transmitted (fst (Send_all junk app calls))
  = match m_localAddress app with
    | AddressInvalid => []
    | _ => map (fun call => payload (snd (fst call)) (snd call)) calls
    end
  /\ length (fst (Send_all junk app calls))
     = match m_localAddress app with
       | AddressInvalid => length calls
       | _ => (2 * length calls)%nat
       end.
Proof.
  revert app. induction calls as [| [[to topic] value] calls IH];
    intros app Hcan.
  - split; now destruct (m_localAddress app).
  - rewrite Send_all_cons by assumption. cbn [fst snd].
    destruct (IH (counted app) (counted_can_send app Hcan)) as [IH1 IH2].
    change (m_localAddress (counted app)) with (m_localAddress app)
      in IH1, IH2.
    unfold transmitted in *. rewrite flat_map_app, length_app, IH1, IH2.
    rewrite Send_effects.
    destruct Hcan as [Hs | Ha].
    + destruct (m_socket app); [| contradiction].
      destruct (m_localAddress app); cbn; split; try reflexivity; lia.
    + rewrite Ha. split; reflexivity.
Qed.

Lemma HandleRead_payloads
    (calls : list (FncsApplication * string * string)) :
  Forall plain_topic calls ->
  HandleRead (map (fun call => payload (snd (fst call)) (snd call)) calls)
  = (map publication calls, Ok tt).
Proof.
  induction 1 as [| [[to topic] value] calls Ht _ IH]; [reflexivity |].
  unfold plain_topic in Ht. cbn [fst snd] in Ht.
  cbn [map HandleRead fst snd]. unfold payload at 1.
  change ("=" +:+ value) with (String "="%char value).
  rewrite (HandleRead_packet_cut topic value Ht), IH. reflexivity.
Qed.

(** X10. Replaying at the receiver what a run of [Send] transmitted.  When
    the sender has its socket and an IPv4 or IPv6 local address and no
    topic holds an ['='], every call returns and [HandleRead] on the
    transmitted packets returns and publishes the (topic, value) pairs of
    the calls in call order.  When the sender's local address matches
    neither family every call returns and is traced, and nothing is
    transmitted.  When the sender has no socket and an IPv4 or IPv6 local
    address the first call dies on the null socket after its trace:
    nothing is transmitted and no later call is made. *)
Theorem HandleRead_replays_what_was_sent (junk : nat -> byte)
    (app : FncsApplication)
    (calls : list (FncsApplication * string * string))
    (Htopics : Forall plain_topic calls) :
  (m_socket app <> None -> m_localAddress app <> AddressInvalid ->
   (exists app' : FncsApplication,
      snd (Send_all junk app calls) = Some app')
   /\ HandleRead (transmitted (fst (Send_all junk app calls)))
      = (map publication calls, Ok tt))
  /\ (m_localAddress app = AddressInvalid ->
      (exists app' : FncsApplication,
         snd (Send_all junk app calls) = Some app')
      /\ transmitted (fst (Send_all junk app calls)) = []
      /\ length (fst (Send_all junk app calls)) = length calls)
  /\ (m_socket app = None -> m_localAddress app <> AddressInvalid ->
      transmitted (fst (Send_all junk app calls)) = []
      /\ (length (fst (Send_all junk app calls)) <= 1)%nat
      /\ (calls <> [] -> snd (Send_all junk app calls) = None)).
Proof.
  split; [| split].
  - intros Hs Ha. assert (Hcan : can_send app) by now left.
    split; [eexists; now apply Send_all_returns |].
    destruct (transmitted_Send_all junk calls app Hcan) as [-> _].
    destruct (m_localAddress app); [contradiction | |];
      now apply HandleRead_payloads.
  - intros Ha. assert (Hcan : can_send app) by now right.
    split; [eexists; now apply Send_all_returns |].
    destruct (transmitted_Send_all junk calls app Hcan) as [-> ->].
    rewrite Ha. split; reflexivity.
  - intros Hs Ha. destruct calls as [| [[to topic] value] calls].
    + cbn. split; [reflexivity |]. split; [lia | congruence].
    + cbn [Send_all]. unfold Send. rewrite Hs.
      destruct (m_localAddress app); [contradiction | |]; cbn;
        (split; [reflexivity |]; split; [lia | reflexivity]).
Qed.

Lemma HandleRead_replays_what_was_sent_witness :
  Forall plain_topic
    [(started_meter, "volt", "120.5"); (started_meter, "amp", "3=x")]%string
  /\ m_socket started_meter <> None
  /\ m_localAddress started_meter <> AddressInvalid
  /\ HandleRead
       (transmitted
          (fst (Send_all (fun _ => Byte.x00) started_meter
                  [(started_meter, "volt", "120.5");
                   (started_meter, "amp", "3=x")]%string)))
     = ([Publish "volt" "120.5"; Publish "amp" "3=x"], Ok tt).
Proof.
  assert (H : Forall plain_topic
                [(started_meter, "volt", "120.5");
                 (started_meter, "amp", "3=x")]%string).
  { repeat constructor; unfold plain_topic, occurs; cbn;
      intros Hin; repeat (destruct Hin as [Hin | Hin]; [discriminate |]);
      exact Hin. }
  assert (Hs : m_socket started_meter <> None) by discriminate.
  assert (Ha : m_localAddress started_meter <> AddressInvalid)
    by discriminate.
  split; [exact H |]. split; [exact Hs |]. split; [exact Ha |].
  destruct (HandleRead_replays_what_was_sent (fun _ => Byte.x00)
              started_meter _ H) as [Hgo _].
  destruct (Hgo Hs Ha) as [_ ->]. reflexivity.
Defined.

(** X11. What one call of [HandleRead] does with the pending packets: it
    returns exactly when every packet holds an ['='], and is fatal with the
    message of the missing ['='] otherwise; it publishes at most one pair
    per packet, and one per packet exactly when it returns; no published
    topic holds an ['=']; after a fatal packet later packets change
    nothing, and after a returning prefix the rest is handled as on its
    own. *)
Theorem HandleRead_outcome (pending : list Packet) :
  (snd (HandleRead pending) = Ok tt
   <-> Forall (fun p => occurs "="%char (CopyData p)) pending)
  /\ (snd (HandleRead pending) = Ok tt
      \/ snd (HandleRead pending) = Fatal fatal_read)
  /\ (length (fst (HandleRead pending)) <= length pending)%nat
  /\ (length (fst (HandleRead pending)) = length pending
      <-> snd (HandleRead pending) = Ok tt)
  /\ Forall (fun e => exists topic value : string,
                 e = Publish topic value /\ ~ occurs "="%char topic)
       (fst (HandleRead pending))
  /\ (forall more : list Packet,
        snd (HandleRead pending) = Fatal fatal_read ->
        HandleRead (pending ++ more) = HandleRead pending)
  /\ (forall more : list Packet,
        snd (HandleRead pending) = Ok tt ->
        HandleRead (pending ++ more)
        = (fst (HandleRead pending) ++ fst (HandleRead more),
           snd (HandleRead more))).
Proof.
  induction pending as [| p pending IH].
  - cbn. repeat split; auto; try constructor; try discriminate.
    intros more _. now destruct (HandleRead more).
  - destruct IH as (IH1 & IH2 & IH3 & IH4 & IH5 & IH6 & IH7).
    cbn [HandleRead app].
    destruct (HandleRead_packet_cases p)
      as [[Hno ->] | (t & v & Hs & Ht & ->)].
    + cbn. repeat split; auto; try discriminate; try lia;
        try constructor.
      intros H. inversion H; subst. contradiction.
    + assert (Hp : occurs "="%char (CopyData p))
        by (rewrite Hs; apply occurs_app_delim).
      destruct (HandleRead pending) as [effects res] eqn:E.
      cbn [fst snd length] in *.
      split; [| split; [| split; [| split; [| split; [| split]]]]].
      * rewrite IH1. split; [now constructor |].
        intros H. now inversion H.
      * exact IH2.
      * lia.
      * rewrite <- IH4. lia.
      * constructor; [eauto | exact IH5].
      * intros more Hf. now rewrite (IH6 more Hf).
      * intros more Hok. rewrite (IH7 more Hok).
        now destruct (HandleRead more).
Qed.

(** X12. Starting, stopping and rebinding a named endpoint: starting a
    started endpoint changes nothing; stopping twice is stopping once and
    leaves no socket; a local address set while the endpoint is started
    does not rebind its socket; set after [StopApplication], the next start
    binds the new address and port (or an ephemeral one for an address of
    neither family). *)
Theorem StartApplication_lifecycle (app : FncsApplication) (ip : Address)
    (port : Z) (Hname : m_name app <> EmptyString) :
  exists app1 : FncsApplication,
    StartApplication app = Ok app1
    /\ StartApplication app1 = Ok app1
    /\ StopApplication (StopApplication app1) = StopApplication app1
    /\ m_socket (StopApplication app1) = None
    /\ (exists app2 : FncsApplication,
          StartApplication (SetLocal ip port app1) = Ok app2
          /\ m_socket app2 = m_socket app1
          /\ m_localAddress app2 = ip /\ m_localPort app2 = port)
    /\ (exists (app3 : FncsApplication) (socket : Socket),
          StartApplication (SetLocal ip port (StopApplication app1))
          = Ok app3
          /\ m_socket app3 = Some socket
          /\ sock_recv_callback socket = true
          /\ sock_bound socket
             = match ip with
               | AddressIpv4 _ => Some (InetSocketAddress ip port)
               | AddressIpv6 _ => Some (Inet6SocketAddress ip port)
               | AddressInvalid => None
               end).
Proof.
  assert (He : empty (m_name app) = false).
  { destruct (empty (m_name app)) eqn:E; [| reflexivity].
    apply empty_spec in E. contradiction. }
  unfold StartApplication at 1. rewrite He.
  eexists. split; [reflexivity |].
  unfold StartApplication, SetLocal, StopApplication.
  cbn [m_name m_sent m_socket m_localAddress m_localPort sock_bound].
  rewrite He.
  split; [reflexivity |]. split; [reflexivity |]. split; [reflexivity |].
  split.
  - eexists. split; [reflexivity |]. cbn. auto.
  - eexists. eexists. split; [reflexivity |].
    split; [reflexivity |]. split; [reflexivity |].
    cbn. destruct ip; reflexivity.
Qed.

Lemma StartApplication_lifecycle_witness :
  m_name (SetName "meter" FncsApplication_new) <> EmptyString
  /\ exists app1 : FncsApplication,
       StartApplication (SetName "meter" FncsApplication_new) = Ok app1
       /\ StartApplication app1 = Ok app1.
Proof.
  assert (H : m_name (SetName "meter" FncsApplication_new) <> EmptyString)
    by discriminate.
  split; [exact H |].
  destruct (StartApplication_lifecycle (SetName "meter" FncsApplication_new)
              (AddressIpv4 1) 9 H) as (app1 & H1 & H2 & _).
  exists app1. split; assumption.
Defined.

(** X14. The counter of [Send] is a 32-bit counter (the width the "Sent"
    attribute is checked with): on an endpoint that has its socket, or
    whose local address matches neither family, every run of calls returns
    with the counter at the sum of its initial value and the number of
    calls modulo [2^32]; it stays within 32 bits, and a call at [2^32 - 1]
    brings it back to 0. *)
Theorem Send_counter_wraps (junk : nat -> byte) (app : FncsApplication)
    (calls : list (FncsApplication * string * string))
    (Hcan : can_send app)
    (H : 0 <= m_sent app < 2 ^ 32) :
  exists app' : FncsApplication,
    snd (Send_all junk app calls) = Some app'
    /\ m_sent app' = to_uint32 (m_sent app + Z.of_nat (length calls))
    /\ 0 <= m_sent app' < 2 ^ 32
    /\ (m_sent app = 2 ^ 32 - 1 ->
        forall (to : FncsApplication) (topic value : string),
        exists app1 : FncsApplication,
          snd (Send junk app to topic value) = Some app1
          /\ m_sent app1 = 0).
Proof.
  exists (Nat.iter (length calls) counted app).
  split; [now apply Send_all_returns |].
  rewrite counted_m_sent by assumption.
  split; [reflexivity |]. split.
  - unfold to_uint32. apply Z.mod_pos_bound. lia.
  - intros Hmax to topic value. exists (counted app).
    split; [now apply Send_returns |].
    unfold counted. cbn [m_sent]. rewrite Hmax. reflexivity.
Qed.

Lemma Send_counter_wraps_witness :
  can_send (mkApp "meter" (2 ^ 32 - 1) (m_socket started_meter)
              (AddressIpv4 1) 9)
  /\ 0 <= m_sent (mkApp "meter" (2 ^ 32 - 1) (m_socket started_meter)
                    (AddressIpv4 1) 9) < 2 ^ 32
  /\ exists app' : FncsApplication,
       snd (Send_all (fun _ => Byte.x00)
              (mkApp "meter" (2 ^ 32 - 1) (m_socket started_meter)
                 (AddressIpv4 1) 9)
              [(started_meter, "volt", "120.5");
               (started_meter, "amp", "3")]%string)
       = Some app'
       /\ m_sent app' = 1.
Proof.
  assert (Hc : can_send (mkApp "meter" (2 ^ 32 - 1) (m_socket started_meter)
                           (AddressIpv4 1) 9)) by (left; discriminate).
  assert (H : 0 <= m_sent (mkApp "meter" (2 ^ 32 - 1)
                             (m_socket started_meter) (AddressIpv4 1) 9)
              < 2 ^ 32) by (cbn [m_sent]; lia).
  split; [exact Hc |]. split; [exact H |].
  destruct (Send_counter_wraps (fun _ => Byte.x00) _
              [(started_meter, "volt", "120.5");
               (started_meter, "amp", "3")]%string Hc H)
    as (app' & Hs & Hn & _).
  exists app'. split; [exact Hs |]. rewrite Hn. reflexivity.
Defined.

End fncs_wire_facts.

(** ** The sample program *)

Module sample_simulator_facts.
Import nstime nstime_facts Scheduler Scheduler_facts sample_simulator.

Lemma Schedule_accepted (delay : Time) (cb : Callback) (s : State) :
  0 <= m_data delay ->
  int64_range (m_data (now s) + m_data delay) ->
  Schedule delay cb s
  = Some (next_seq s,
          mkState (now s) (S (next_seq s))
            (queue s
             ++ [mkEvent (mkTime (m_data (now s) + m_data delay))
                   (next_seq s) cb true])).
Proof.
  intros Hd Hr. unfold Schedule, op_lt, op_add, Time_int64. cbn [m_data].
  rewrite to_int64_id by assumption.
  destruct (Z.ltb_spec (m_data (now s) + m_data delay) (m_data (now s)));
    [lia | reflexivity].
Qed.

(** The earliest live event is the live event below all the others. *)
Lemma earliest_intro (q : list Event) (e : Event) :
  In e q -> ev_live e = true ->
  (forall e', In e' q -> ev_live e' = true -> e' = e \/ key_lt e e') ->
  earliest q = Some e.
Proof.
  intros Hin Hl Hmin.
  destruct (earliest q) as [m |] eqn:Em.
  - apply earliest_Some in Em as (Hm & Hlm & Hmmin).
    destruct (Hmin m Hm Hlm) as [-> | Hlt]; [reflexivity |].
    exfalso. exact (Hmmin e Hin Hl Hlt).
  - apply earliest_None in Em.
    assert (Hf : In e (live q)) by (apply filter_In; auto).
    rewrite Em in Hf. destruct Hf.
Qed.

Lemma sec_10 : sec 10 = mkTime 10000000000.
Proof. vm_compute. reflexivity. Qed.
Lemma sec_20 : sec 20 = mkTime 20000000000.
Proof. vm_compute. reflexivity. Qed.
Lemma sec_30 : sec 30 = mkTime 30000000000.
Proof. vm_compute. reflexivity. Qed.
Lemma sec_100 : sec 100 = mkTime 100000000000.
Proof. vm_compute. reflexivity. Qed.

Lemma Run_dispatch (body : nat -> list Command) (fuel : nat) (s s' : State)
    (e : Event) (tag : nat) :
  earliest (queue s) = Some e ->
  ev_cb e = UserCallback tag ->
  exec_all (body tag) (mkState (ev_time e) (next_seq s) (pop e (queue s)))
  = s' ->
  Run body (S fuel) s
  = (e :: trace (Run body fuel s'), final (Run body fuel s'),
     finished (Run body fuel s')).
Proof.
  intros He Hcb Hs'. rewrite Run_S, He. cbn zeta. rewrite Hcb, Hs'.
  now destruct (Run body fuel s') as [[tr s2] fin].
Qed.

Lemma Run_stop (body : nat -> list Command) (fuel : nat) (s : State)
    (e : Event) :
  earliest (queue s) = Some e ->
  ev_cb e = StopCallback ->
  Run body (S fuel) s
  = ([], mkState (ev_time e) (next_seq s) (pop e (queue s)), true).
Proof. intros He Hcb. rewrite Run_S, He. cbn zeta. now rewrite Hcb. Qed.

Ltac earliest_is :=
  apply earliest_intro;
  [ cbn [queue In]; tauto
  | reflexivity
  | let e' := fresh "e'" in
    let He' := fresh "He'" in
    let Hl' := fresh "Hl'" in
    intros e' He' Hl'; cbn [queue In] in He';
    repeat (destruct He' as [He' | He']; [subst e' |]);
    try (destruct He');
    try (left; reflexivity);
    try (cbn in Hl'; discriminate);
    right; unfold key_lt; cbn [ev_time ev_seq m_data]; lia ].

(** The state of the scheduler when [main] calls [Run]. *)
Lemma main_before_Run (d : Z) :
  10000000000 <= d <= 20000000000 ->
  Stop (mkTime 100000000000)
    match
      Schedule (mkTime 30000000000) (UserCallback CancelledEvent)
        (exec (exec initial
                 (CSchedule (mkTime 10000000000) ExampleFunction))
           (CSchedule (mkTime d) RandomFunction))
    with
    | Some (id, s') => Cancel id s'
    | None =>
        exec (exec initial (CSchedule (mkTime 10000000000) ExampleFunction))
          (CSchedule (mkTime d) RandomFunction)
    end
  = mkState (mkTime 0) 4
      [mkEvent (mkTime 10000000000) 0 (UserCallback ExampleFunction) true;
       mkEvent (mkTime d) 1 (UserCallback RandomFunction) true;
       mkEvent (mkTime 30000000000) 2 (UserCallback CancelledEvent) false;
       mkEvent (mkTime 100000000000) 3 StopCallback true].
Proof.
  intros Hd. unfold exec, Stop.
  rewrite (Schedule_accepted (mkTime 10000000000)
             (UserCallback ExampleFunction) initial)
    by (unfold int64_range, initial; cbn [m_data now]; lia).
  cbn [initial now next_seq queue m_data List.app].
  rewrite (Schedule_accepted (mkTime d) (UserCallback RandomFunction))
    by (unfold int64_range; cbn [m_data now]; lia).
  cbn [now next_seq queue m_data List.app].
  rewrite (Schedule_accepted (mkTime 30000000000)
             (UserCallback CancelledEvent))
    by (unfold int64_range; cbn [m_data now]; lia).
  unfold Cancel.
  cbn [now next_seq queue m_data List.app map ev_seq ev_time ev_cb ev_live
         Nat.eqb].
  rewrite (Schedule_accepted (mkTime 100000000000) StopCallback)
    by (unfold int64_range; cbn [m_data now]; lia).
  cbn [now next_seq queue m_data List.app].
  rewrite !Z.add_0_l. reflexivity.
Qed.

(** X13. The run of the sample program: whatever delay between 10 s and
    20 s the random variable gives, [Run] dispatches [ExampleFunction] at
    10 s, then [RandomFunction] at its delay, then the [HandleEvent] that
    [ExampleFunction] scheduled, at 20 s; the cancelled event is never
    dispatched; the run ends at the stop event with the clock at 100 s,
    and [Destroy] leaves no event. *)
Theorem sample_program_run (v : Time) (fuel : nat)
    (Hv : m_data (sec 10) <= m_data v <= m_data (sec 20))
    (Hfuel : (4 <= fuel)%nat) :
  main v fuel
  = ([mkEvent (sec 10) 0 (UserCallback ExampleFunction) true;
      mkEvent v 1 (UserCallback RandomFunction) true;
      mkEvent (sec 20) 4 (UserCallback HandleEvent) true],
     mkState (sec 100) 5 [], true).
Proof.
  rewrite sec_10, sec_20 in *. rewrite sec_100.
  destruct v as [d]. cbn [m_data] in Hv.
  do 4 (destruct fuel as [| fuel]; [lia |]). clear Hfuel.
  unfold main. rewrite sec_10, sec_30, sec_100.
  rewrite (main_before_Run d Hv).
  erewrite (Run_dispatch body _ _ _
              (mkEvent (mkTime 10000000000) 0
                 (UserCallback ExampleFunction) true) ExampleFunction);
    [| earliest_is | reflexivity |].
  2: { change (body ExampleFunction)
         with [CSchedule (sec 10) HandleEvent].
       rewrite sec_10. unfold exec_all. cbn [fold_left exec].
       rewrite (Schedule_accepted (mkTime 10000000000)
                  (UserCallback HandleEvent))
         by (unfold int64_range; cbn [m_data now ev_time]; lia).
       cbn [now next_seq queue m_data List.app pop List.filter ev_seq
              ev_time Nat.eqb negb].
       change (10000000000 + 10000000000) with 20000000000.
       reflexivity. }
  erewrite (Run_dispatch body _ _ _
              (mkEvent (mkTime d) 1 (UserCallback RandomFunction) true)
              RandomFunction);
    [| earliest_is | reflexivity |].
  2: { change (body RandomFunction) with (@nil Command).
       unfold exec_all.
       cbn [fold_left now next_seq queue pop List.filter ev_seq ev_time
              Nat.eqb negb].
       reflexivity. }
  erewrite (Run_dispatch body _ _ _
              (mkEvent (mkTime 20000000000) 4
                 (UserCallback HandleEvent) true) HandleEvent);
    [| earliest_is | reflexivity |].
  2: { change (body HandleEvent) with (@nil Command).
       unfold exec_all.
       cbn [fold_left now next_seq queue pop List.filter ev_seq ev_time
              Nat.eqb negb].
       reflexivity. }
  erewrite (Run_stop body _ _
              (mkEvent (mkTime 100000000000) 3 StopCallback true));
    [| earliest_is | reflexivity].
  reflexivity.
Qed.

Lemma sample_program_run_witness :
  m_data (sec 10) <= m_data (sec 15) <= m_data (sec 20)
  /\ (4 <= 4)%nat
  /\ map ev_cb (trace (main (sec 15) 4))
     = [UserCallback ExampleFunction; UserCallback RandomFunction;
        UserCallback HandleEvent].
Proof.
  assert (Hv : m_data (sec 10) <= m_data (sec 15) <= m_data (sec 20))
    by (vm_compute; split; discriminate).
  assert (Hf : (4 <= 4)%nat) by lia.
  split; [exact Hv |]. split; [exact Hf |].
  rewrite (sample_program_run (sec 15) 4 Hv Hf). reflexivity.
Defined.

End sample_simulator_facts.
